(** * openapi-parser, v3: schema resolution and reference flattening

    A shallow embedding of [src/v3/parser.ts] and the properties its
    specification states about it.

    Conventions of the embedding.
    - A JavaScript string is the sequence of its code units; a code unit is
      an [ascii], so the strings considered are those whose code units are
      below 256.  In that range the line terminators of the regular
      expression dialect are LF and CR.
    - [undefined] and [null] are [None]; a string is truthy when it is
      present and not empty.
    - An object that is only read by key ([definitions], [paths]) is a
      [gmap]; an object that is enumerated ([properties], [content]) is the
      list of its entries in the order of [Object.keys].
    - A lookup by key sees the entries of the object itself.  What the
      object inherits from [Object.prototype] is modelled where it changes
      the outcome, in [paths[path]?.[method]] of [parser]; a member that
      [definitions[name]] inherits has no [properties] and so counts as no
      definition.
    - A call that throws ends in [TypeError].
    - [console.log] only writes to the console and is left out.
    - The recursion between [resolveInterface], [resolveProperties] and
      [transformInterfaceBody] is bounded by a fuel argument that counts
      nested calls of [resolveInterface]; [None] stands for "fuel
      exhausted" and for nothing else. *)

From Stdlib Require Import Ascii.
From Stdlib Require String.
From stdpp Require Import base option list strings gmap fin_maps.

#[local] Set Warnings "-register-all".

(** ** Strings *)

Module Js.

(** [o] in a condition, for [o : string | undefined]. *)
Definition truthy (o : option string) : bool :=
  match o with
  | Some s => negb (String.eqb s "")
  | None => false
  end.

(** [s.startsWith(p)] *)
Definition startsWith (s p : string) : bool := String.prefix p s.

(** [s.substring(n)] *)
Fixpoint substringFrom (n : nat) (s : string) : string :=
  match n, s with
  | O, _ => s
  | S _, EmptyString => EmptyString
  | S n', String _ s' => substringFrom n' s'
  end.

(** [s.slice(0, n)] for [0 <= n] *)
Fixpoint sliceTo (n : nat) (s : string) : string :=
  match n, s with
  | O, _ => EmptyString
  | S _, EmptyString => EmptyString
  | S n', String c s' => String c (sliceTo n' s')
  end.

(** [s.indexOf(p)], [None] for [-1] *)
Definition indexOf (s p : string) : option nat := String.index 0 p s.

(** The characters that [.] does not match. *)
Definition isLineTerminator (c : ascii) : bool :=
  Ascii.eqb c "010" || Ascii.eqb c "013".

Fixpoint noLineTerminator (s : string) : bool :=
  match s with
  | EmptyString => true
  | String c s' => negb (isLineTerminator c) && noLineTerminator s'
  end.

Fixpoint endsWithBracket (s : string) : bool :=
  match s with
  | EmptyString => false
  | String c EmptyString => Ascii.eqb c "]"
  | String _ s' => endsWithBracket s'
  end.

(** Whether [\[.*\]] followed by [$] matches at the start of [s]: an
    opening bracket, characters of one line, and a closing bracket that
    ends the input. The match, when there is one, is all of [s]. *)
Definition arraySuffixAt (s : string) : bool :=
  match s with
  | String c s' => Ascii.eqb c "[" && noLineTerminator s' && endsWithBracket s'
  | EmptyString => false
  end.

(** [s.split(/(\[.*\])?$/)[0]]: the text before the first position below
    the length of [s] where the pattern matches.  The empty alternative
    of the group needs [$], which holds at no such position, so a match
    is a match of the group.  On the empty string JavaScript yields
    [undefined] and this function the empty string, which the caller
    treats alike ([if (!ref) return]). *)
Fixpoint splitHead (s : string) : string :=
  match s with
  | EmptyString => EmptyString
  | String c s' => if arraySuffixAt s then EmptyString else String c (splitHead s')
  end.

(** The first capture of [/.*?(\[.*\])?$/] on a single line [s]: the
    lazy [.*?] stops at the first position where the group matches. *)
Fixpoint firstArraySuffix (s : string) : option string :=
  match s with
  | EmptyString => None
  | String _ s' => if arraySuffixAt s then Some s else firstArraySuffix s'
  end.

(** [s] cut after its last line terminator.  A match of
    [/.*?(\[.*\])?$/] has to reach the end of the input and cannot cross
    a line terminator, so the first match starts where the last line
    starts. *)
Fixpoint splitLastLine (s : string) : string * string :=
  match s with
  | EmptyString => (EmptyString, EmptyString)
  | String c s' =>
      if noLineTerminator s then (EmptyString, s)
      else let '(before, line) := splitLastLine s' in (String c before, line)
  end.

(** GetSubstitution of ECMAScript for a pattern with one capturing group
    and no named group.  [$$], [$`], [$&], [$'] and the references to
    the first group ([$1], [$01]) are expanded; every other character,
    a [$] that starts none of these included, stands for itself. *)
Fixpoint getSubstitution (matched before after : string) (capture : option string)
    (template : string) : string :=
  match template with
  | EmptyString => EmptyString
  | String c rest =>
      let literal := String c (getSubstitution matched before after capture rest) in
      if negb (Ascii.eqb c "$") then literal else
      match rest with
      | EmptyString => literal
      | String d rest' =>
          let continue := getSubstitution matched before after capture rest' in
          if Ascii.eqb d "$" then String "$" continue
          else if Ascii.eqb d "`" then before +:+ continue
          else if Ascii.eqb d "&" then matched +:+ continue
          else if Ascii.eqb d "'" then after +:+ continue
          else if Ascii.eqb d "1" then default "" capture +:+ continue
          else if Ascii.eqb d "0" then
            match rest' with
            | String e rest'' =>
                if Ascii.eqb e "1"
                then default "" capture +:+ getSubstitution matched before after capture rest''
                else literal
            | EmptyString => literal
            end
          else literal
      end
  end.

(** The character [c] does not occur in [s]. *)
Fixpoint lacks (c : ascii) (s : string) : bool :=
  match s with
  | EmptyString => true
  | String d s' => negb (Ascii.eqb d c) && lacks c s'
  end.


(** [s.replace(/.*?(\[.*\])?$/, template)] *)
Definition replaceRef (s template : string) : string :=
  let '(before, line) := splitLastLine s in
  before +:+ getSubstitution line before "" (firstArraySuffix line) template.

(** [s.toLowerCase()] on code units below 256: the letters A to Z and the
    capital letters of Latin-1. *)
Fixpoint toLowerCase (s : string) : string :=
  match s with
  | EmptyString => EmptyString
  | String c rest =>
      let n := nat_of_ascii c in
      let upper := (65 <=? n)%nat && (n <=? 90)%nat
                   || (192 <=? n)%nat && (n <=? 222)%nat && negb (n =? 215)%nat in
      String (if upper then ascii_of_nat (n + 32) else c) (toLowerCase rest)
  end.

(** *** Property access *)

(** How an evaluation ends: with a value, or by throwing a [TypeError]. *)
Inductive Completion (A : Type) : Type :=
| Normal (a : A)
| TypeError.

Arguments Normal {A} a.
Arguments TypeError {A}.

(** The built-in objects that a property access on an object of the
    document reaches through the prototype chain: [Object.prototype]
    itself, the constructor [Object], and the methods of
    [Object.prototype], of which only the [length] matters. *)
Inductive Builtin : Type :=
| ObjectPrototype
| ObjectConstructor
| Method (length : nat).

(** The names of the properties of [Object.prototype]. *)
Definition objectPrototypeKeys : list string :=
  ["constructor"; "__proto__"; "__defineGetter__"; "__defineSetter__";
   "__lookupGetter__"; "__lookupSetter__"; "hasOwnProperty"; "isPrototypeOf";
   "propertyIsEnumerable"; "toLocaleString"; "toString"; "valueOf"].

(** [o[key]] for an object [o] of the document that has no entry [key]
    of its own: the member that [o] inherits from [Object.prototype], or
    [undefined].  [__proto__] gives the prototype of [o]. *)
Definition objectPrototypeMember (key : string) : option Builtin :=
  if String.eqb key "constructor" then Some ObjectConstructor
  else if String.eqb key "__proto__" then Some ObjectPrototype
  else if bool_decide (key ∈ ["__defineGetter__"; "__defineSetter__"]) then Some (Method 2)
  else if bool_decide (key ∈ ["__lookupGetter__"; "__lookupSetter__"; "hasOwnProperty";
                              "isPrototypeOf"; "propertyIsEnumerable"])
       then Some (Method 1)
  else if bool_decide (key ∈ ["toLocaleString"; "toString"; "valueOf"]) then Some (Method 0)
  else None.

(** Whether [f[key]] is truthy, for a built-in function [f] with the given
    [length] and, besides [length] and [name], the own properties [own].
    The name of a built-in function is not empty.  What [f] does not own
    it inherits from [Function.prototype], where [arguments] and [caller]
    throw when they are read, and then from [Object.prototype]. *)
Definition functionMember (length : nat) (own : list string) (key : string) : Completion bool :=
  if String.eqb key "length" then Normal (negb (Nat.eqb length 0))
  else if String.eqb key "name" then Normal true
  else if bool_decide (key ∈ own) then Normal true
  else if bool_decide (key ∈ ["arguments"; "caller"]) then TypeError
  else Normal (bool_decide (key ∈ ["apply"; "bind"; "call"; "constructor"; "toString"]
                                  ++ objectPrototypeKeys)).

(** Whether [v[key]] is truthy, for a built-in [v].  [objectStatics] are
    the names of the static methods of [Object].  The prototype of
    [Object.prototype] is [null]. *)
Definition builtinMember (objectStatics : list string) (v : Builtin) (key : string)
    : Completion bool :=
  match v with
  | ObjectPrototype =>
      Normal (bool_decide (key ∈ objectPrototypeKeys) && negb (String.eqb key "__proto__"))
  | ObjectConstructor => functionMember 1 ("prototype" :: objectStatics) key
  | Method length => functionMember length [] key
  end.

End Js.

(** ** Data model ([../types], [./types]) *)

(** A schema object.  A [Definition] is the same kind of object, read for
    [properties], [required] and [description] ([schema as Definition]);
    the collector is an array of interfaces, index 0 first. *)
Inductive Schema : Type := mkSchema {
  s_type : option string;
  s_items : option Schema;
  s_format : option string;
  s_ref : option string;
  s_description : option string;
  s_properties : option (list (string * option Schema));
  s_required : option (list string)
}.

(** [{}] *)
Definition emptySchema : Schema := mkSchema None None None None None None None.

Record Field : Type := mkField {
  f_name : string;
  f_optional : bool;
  f_type : string;
  f_description : option string;
  f_format : option string
}.

Record Interface : Type := mkInterface {
  i_name : string;
  i_description : option string;
  i_fields : list Field
}.

Record ParameterV3 : Type := mkParameter {
  p_name : string;
  p_in : string;
  p_required : option bool;
  p_description : option string;
  p_schema : option Schema
}.

Record MediaType : Type := mkMediaType { m_schema : option Schema }.

Record Content : Type := mkContent { content : option (list (string * MediaType)) }.

Record RequestDefinitionV3 : Type := mkOperation {
  operationId : string;
  summary : option string;
  op_description : option string;
  parameters : option (list ParameterV3);
  requestBody : option Content;
  responses : gmap string Content
}.

Record SwaggerV3 : Type := mkSwagger {
  paths : gmap string (gmap string RequestDefinitionV3);
  schemas : gmap string Schema
}.

Record ParseResult : Type := mkParseResult {
  r_name : string;
  r_comment : string;
  r_body : option string;
  r_isFormData : bool;
  r_pathVar : option string;
  r_query : option string;
  r_res : option string;
  r_interfaces : list Interface
}.

Definition names (collector : list Interface) : list string := i_name <$> collector.

(** [collector.some((d) => d.name === name)] *)
Definition hasName (name : string) (collector : list Interface) : bool :=
  existsb (fun d => String.eqb (i_name d) name) collector.

(** [collector.at(-1)?.name] *)
Definition lastName (collector : list Interface) : option string := i_name <$> last collector.

(** [item.type = v] for the item at index [idx] of the fields of the
    interface that lies [owner] places before the end of the collector. *)
Definition setFieldType (owner idx : nat) (v : string) (collector : list Interface) : list Interface :=
  alter (fun d => mkInterface (i_name d) (i_description d)
                    (alter (fun item => mkField (f_name item) (f_optional item) v
                                          (f_description item) (f_format item))
                       idx (i_fields d)))
    (length collector - S owner) collector.

(** ** The parser *)

Definition definitionPrefix : string := "#/components/schemas/".

Fixpoint javaTypeToTsKeyword (schema : Schema) : option string :=
  let type := default "" (s_type schema) in
  if String.eqb type "file" || bool_decide (s_format schema = Some "binary") then Some "File"
  else if bool_decide (type ∈ ["number"; "integer"]) then Some "number"
  else if bool_decide (type ∈ ["string"; "boolean"; "object"]) then Some type
  else if String.eqb type "array" then
    let tsKeyword :=
      match s_items schema with
      | Some items =>
          if Js.truthy (s_ref items) then s_ref items
          else if Js.truthy (s_type items) then javaTypeToTsKeyword items
          else None
      | None => None
      end in
    if Js.truthy tsKeyword then (fun k => k +:+ "[]") <$> tsKeyword else None
  else None.

(** [$ref ? $ref : type ? javaTypeToTsKeyword(schema) : null], the type
    expression of a property or of a parameter's schema. *)
Definition tsKeywordOf (schema : Schema) : option string :=
  if Js.truthy (s_ref schema) then s_ref schema
  else if Js.truthy (s_type schema) then javaTypeToTsKeyword schema
  else None.

(** [properties[propName]] *)
Definition property (properties : list (string * option Schema)) (propName : string)
    : option Schema :=
  mjoin (snd <$> List.find (fun e => String.eqb (fst e) propName) properties).

(** The loop of [resolveProperties] that fills [interfaceBody]; a property
    without a type expression is skipped. *)
Definition propertyFields (properties : list (string * option Schema))
    (required : list string) (markRequired : bool) : list Field :=
  omap (fun propName =>
          let schema := default emptySchema (property properties propName) in
          let tsKeyword := tsKeywordOf schema in
          if negb (Js.truthy tsKeyword) then None
          else Some (mkField propName
                       (negb markRequired || negb (bool_decide (propName ∈ required)))
                       (default "" tsKeyword)
                       (s_description schema)
                       (s_format schema)))
       (fst <$> properties).

Section Resolver.

(** [matchRefTypeName] of [../utils], whose source is not part of the
    module: the name under which the interface of a reference is
    registered. *)
Variable matchRefTypeName : string -> string -> string.

Section Unfolded.

(** The nested calls of [resolveInterface]. *)
Variable resolveInterface_rec :
  string -> gmap string Schema -> list Interface -> bool -> option (list Interface).

(** [interfaceBody.forEach(...)], from the item at index [idx] on.
    [interfaceBody] is the array that [unshift] stored in the collector
    as the fields of an interface; interfaces are only added at the
    front, so that interface stays [owner] places before the end. *)
Fixpoint transformInterfaceBodyFrom (idx owner : nat) (interfaceBody : list Field)
    (definitions : gmap string Schema) (collector : list Interface) (markRequired : bool)
    : option (list Interface) :=
  match interfaceBody with
  | [] => Some collector
  | item :: rest =>
      if Js.startsWith (f_type item) definitionPrefix then
        let ref := Js.splitHead (f_type item) in
        collector' ← resolveInterface_rec ref definitions collector markRequired;
        let type' := Js.replaceRef (f_type item)
                       (matchRefTypeName definitionPrefix (f_type item) +:+ "$1") in
        transformInterfaceBodyFrom (S idx) owner rest definitions
          (setFieldType owner idx type' collector') markRequired
      else
        transformInterfaceBodyFrom (S idx) owner rest definitions collector markRequired
  end.

Definition resolvePropertiesWith (name : string) (definition : option Schema)
    (definitions : gmap string Schema) (collector : list Interface) (markRequired : bool)
    : option (list Interface) :=
  let d := default emptySchema definition in
  match s_properties d with
  | None => Some collector
  | Some properties =>
      let interfaceBody := propertyFields properties (default [] (s_required d)) markRequired in
      transformInterfaceBodyFrom 0 (length collector) interfaceBody definitions
        (mkInterface name (s_description d) interfaceBody :: collector) markRequired
  end.

Definition resolveInterfaceWith (ref : string) (definitions : gmap string Schema)
    (collector : list Interface) (markRequired : bool) : option (list Interface) :=
  if String.eqb ref "" then Some collector else
  let name := matchRefTypeName definitionPrefix ref in
  if hasName name collector then Some collector else
  resolvePropertiesWith name
    (definitions !! Js.substringFrom (String.length definitionPrefix) ref)
    definitions collector markRequired.

End Unfolded.

Fixpoint resolveInterface (fuel : nat) (ref : string) (definitions : gmap string Schema)
    (collector : list Interface) (markRequired : bool) : option (list Interface) :=
  match fuel with
  | O => None
  | S fuel' => resolveInterfaceWith (resolveInterface fuel') ref definitions collector markRequired
  end.

Definition transformInterfaceBody (fuel : nat) (owner : nat) (interfaceBody : list Field)
    (definitions : gmap string Schema) (collector : list Interface) (markRequired : bool)
    : option (list Interface) :=
  transformInterfaceBodyFrom (resolveInterface fuel) 0 owner interfaceBody
    definitions collector markRequired.

Definition resolveProperties (fuel : nat) (name : string) (definition : option Schema)
    (definitions : gmap string Schema) (collector : list Interface) (markRequired : bool)
    : option (list Interface) :=
  resolvePropertiesWith (resolveInterface fuel) name definition definitions collector markRequired.

(** The loop of [resolveParameters]: a referenced schema is resolved
    first, then the field is appended to [interfaceBody] unless the
    parameter has no type expression. *)
Fixpoint parameterFields (fuel : nat) (parameters : list ParameterV3)
    (definitions : gmap string Schema) (collector : list Interface)
    (interfaceBody : list Field) : option (list Interface * list Field) :=
  match parameters with
  | [] => Some (collector, interfaceBody)
  | parameter :: rest =>
      let schema := default emptySchema (p_schema parameter) in
      collector' ← (if Js.truthy (s_ref schema)
                    then resolveInterface fuel (default "" (s_ref schema)) definitions collector true
                    else Some collector);
      let tsKeyword := tsKeywordOf schema in
      if negb (Js.truthy tsKeyword) then
        parameterFields fuel rest definitions collector' interfaceBody
      else
        parameterFields fuel rest definitions collector'
          (interfaceBody ++ [mkField (p_name parameter)
                               (negb (default false (p_required parameter)))
                               (default "" tsKeyword)
                               (p_description parameter)
                               (s_format schema)])
  end.

Definition resolveParameters (fuel : nat) (interfaceName : string)
    (parameters : list ParameterV3) (definitions : gmap string Schema)
    : option (list Interface) :=
  '(collector, interfaceBody) ← parameterFields fuel parameters definitions [] [];
  let collector' :=
    if bool_decide (length interfaceBody ≠ 0)
    then mkInterface interfaceName None interfaceBody :: collector
    else collector in
  transformInterfaceBody fuel (length collector) interfaceBody definitions collector' true.

(** The result is the pair [{ collector, name }]. *)
Definition resolveSchema (fuel : nat) (schema : Schema) (definitions : gmap string Schema)
    (defaultName : string) : option (list Interface * option string) :=
  let collector : list Interface := [] in
  if bool_decide (s_type schema = Some "array") then
    let itemsRef := s_items schema ≫= s_ref in
    if Js.truthy itemsRef then
      collector' ← resolveInterface fuel (default "" itemsRef) definitions collector true;
      Some (collector', lastName collector')
    else
      Some (collector, javaTypeToTsKeyword schema)
  else
    collector' ← (if Js.truthy (s_ref schema)
                  then resolveInterface fuel (default "" (s_ref schema)) definitions collector true
                  else resolveProperties fuel defaultName (Some schema) definitions collector true);
    Some (collector', lastName collector').

Definition parseOperationId (operationId : string) : string :=
  match Js.indexOf operationId "Using" with
  | None => operationId
  | Some index => Js.sliceTo index operationId
  end.

(** [toFirstUpperCase] of [../utils], whose source is not part of the
    module; it only shapes the names of the two parameter interfaces. *)
Variable toFirstUpperCase : string -> string.

(** The parameters that [resolveQuery] keeps. *)
Definition queryParameters (pathVars : list string) (definition : RequestDefinitionV3)
    : list ParameterV3 :=
  default []
    (List.filter (fun parameter =>
                    String.eqb (p_in parameter) "query"
                    && negb (bool_decide (p_name parameter ∈ pathVars)))
       <$> parameters definition).

Definition resolveQuery (fuel : nat) (pathVars : list string)
    (definition : RequestDefinitionV3) (definitions : gmap string Schema)
    : option (list Interface) :=
  let name := parseOperationId (operationId definition) in
  resolveParameters fuel (toFirstUpperCase name +:+ "Query")
    (queryParameters pathVars definition) definitions.

(** The parameters that [resolvePath] keeps. *)
Definition pathParameters (pathVars : list string) (definition : RequestDefinitionV3)
    : list ParameterV3 :=
  default []
    (List.filter (fun parameter =>
                    String.eqb (p_in parameter) "path"
                    || bool_decide (p_name parameter ∈ pathVars))
       <$> parameters definition).

Definition resolvePath (fuel : nat) (pathVars : list string)
    (definition : RequestDefinitionV3) (definitions : gmap string Schema)
    : option (list Interface) :=
  let name := parseOperationId (operationId definition) in
  resolveParameters fuel (toFirstUpperCase name +:+ "PathVar")
    (pathParameters pathVars definition) definitions.

(** [path.match(/\{(.+?)\}/g)?.map((d) => d.slice(1, -1)) || []], read
    from left to right.  [inside] holds the text since the last opening
    brace while a match is under way.  A match is completed by the first
    closing brace that follows at least one character, and is given up at
    a line terminator; no match can then start before that terminator,
    since it would need a closing brace that completes the one given
    up. *)
Fixpoint pathVariablesFrom (inside : option string) (path : string) : list string :=
  match path with
  | EmptyString => []
  | String c rest =>
      match inside with
      | None =>
          if Ascii.eqb c "{" then pathVariablesFrom (Some "") rest
          else pathVariablesFrom None rest
      | Some text =>
          if Js.isLineTerminator c then pathVariablesFrom None rest
          else if Ascii.eqb c "}" && negb (String.eqb text "")
               then text :: pathVariablesFrom None rest
               else pathVariablesFrom (Some (text +:+ String c "")) rest
      end
  end.

Definition pathVariables (path : string) : list string := pathVariablesFrom None path.

(** Modelled from the spec: [duplicate] of [../utils], whose source is
    not part of the module.  "Concatenate all four collectors' interfaces
    ... and deduplicate by name, keeping the first occurrence."  [seen]
    holds the names already kept. *)
Fixpoint duplicateFrom (seen : list string) (interfaces : list Interface) : list Interface :=
  match interfaces with
  | [] => []
  | d :: rest =>
      if bool_decide (i_name d ∈ seen) then duplicateFrom seen rest
      else d :: duplicateFrom (i_name d :: seen) rest
  end.

Definition duplicate (interfaces : list Interface) : list Interface :=
  duplicateFrom [] interfaces.

(** The first entry of [content || {}]. *)
Definition firstEntry (body : option Content) : option (string * MediaType) :=
  match body with
  | Some b => head (default [] (content b))
  | None => None
  end.

(** [Object.values(content || {})[0]?.schema || {}] *)
Definition firstSchema (body : option Content) : Schema :=
  match firstEntry body with
  | Some (_, media) => default emptySchema (m_schema media)
  | None => emptySchema
  end.

(** [Object.keys(content || {})[0]] *)
Definition firstMediaType (body : option Content) : option string :=
  fst <$> firstEntry body.

(** [[summary, description].filter(Boolean).join(', ')] *)
Definition joinComment (parts : list (option string)) : string :=
  match omap (fun o => if Js.truthy o then o else None) parts with
  | [] => ""
  | first :: others => fold_left (fun text part => text +:+ ", " +:+ part) others first
  end.

(** The names of the static methods of [Object], which grow with the
    editions of the language. *)
Variable objectStatics : list string.

(** What [paths[path]?.[method]] is to the code that reads it: an
    operation of the document, a falsy value ([undefined], [null], [0]),
    or a truthy value that is no part of the document. *)
Inductive Lookup : Type :=
| Operation (definition : RequestDefinitionV3)
| Falsy
| Foreign.

(** [paths[path]?.[method]] *)
Definition definitionAt (paths : gmap string (gmap string RequestDefinitionV3))
    (path method : string) : Js.Completion Lookup :=
  match paths !! path with
  | Some operations =>
      match operations !! method with
      | Some definition => Js.Normal (Operation definition)
      | None =>
          match Js.objectPrototypeMember method with
          | Some _ => Js.Normal Foreign
          | None => Js.Normal Falsy
          end
      end
  | None =>
      match Js.objectPrototypeMember path with
      | Some builtin =>
          match Js.builtinMember objectStatics builtin method with
          | Js.Normal true => Js.Normal Foreign
          | Js.Normal false => Js.Normal Falsy
          | Js.TypeError => Js.TypeError
          end
      | None => Js.Normal Falsy
      end
  end.

(** The outer [option] is the fuel.  The call throws when reading
    [paths[path]?.[method]] throws, and in [parseOperationId] when the
    value read is truthy and no operation: its [operationId] is
    [undefined], which has no [indexOf].  Otherwise the call returns, with
    [None] when it returns without a value. *)
Definition parser (fuel : nat) (swaggerJSON : SwaggerV3) (path method : string)
    : option (Js.Completion (option ParseResult)) :=
  let definitions := schemas swaggerJSON in
  match definitionAt (paths swaggerJSON) path method with
  | Js.TypeError => Some Js.TypeError
  | Js.Normal Falsy => Some (Js.Normal None)
  | Js.Normal Foreign => Some Js.TypeError
  | Js.Normal (Operation definition) =>
      let name := parseOperationId (operationId definition) in
      let pathVars := pathVariables path in
      pathVarTypes ← resolvePath fuel pathVars definition definitions;
      let pathVar := lastName pathVarTypes in
      queryTypes ← resolveQuery fuel pathVars definition definitions;
      let query := lastName queryTypes in
      '(bodyTypes, body) ← resolveSchema fuel (firstSchema (requestBody definition))
                             definitions "RequestBody";
      '(resTypes, res) ← resolveSchema fuel (firstSchema (responses definition !! "200"))
                           definitions "ResponseBody";
      let comment := joinComment [summary definition; op_description definition] in
      Some (Js.Normal
              (Some (mkParseResult name comment body
                       (bool_decide (firstMediaType (requestBody definition)
                                     = Some "multipart/form-data"))
                       pathVar query res
                       (duplicate (pathVarTypes ++ queryTypes ++ bodyTypes ++ resTypes)))))
  end.

End Resolver.

(** ** The helpers of [../utils] on concrete inputs *)

Module Utils.

(** Modelled from the spec: [matchRefTypeName] of [../utils], whose source
    is not part of the module.  "Input: a reference string of form
    [<prefix><Name>] (optionally followed by an array suffix like [[]]
    captured separately by callers) ... extract [<Name>]".  A text that
    does not begin with the prefix only loses its array suffix. *)
Definition matchRefTypeName (prefix ref : string) : string :=
  Js.splitHead
    (if Js.startsWith ref prefix then Js.substringFrom (String.length prefix) ref else ref).

(** Modelled from the spec: [toFirstUpperCase] of [../utils], whose source
    is not part of the module.  The operation [getPet] gives the interface
    [GetPetPathVar]: the first character is put in upper case. *)
Definition toFirstUpperCase (s : string) : string :=
  match s with
  | EmptyString => EmptyString
  | String c rest =>
      let n := nat_of_ascii c in
      String (if (97 <=? n)%nat && (n <=? 122)%nat then ascii_of_nat (n - 32) else c) rest
  end.

End Utils.

(** ** The built-ins of the language on concrete inputs *)

Module Host.

(** The static methods of [Object] as of ECMAScript 2024. *)
Definition objectStatics : list string :=
  ["assign"; "create"; "defineProperties"; "defineProperty"; "entries"; "freeze";
   "fromEntries"; "getOwnPropertyDescriptor"; "getOwnPropertyDescriptors";
   "getOwnPropertyNames"; "getOwnPropertySymbols"; "getPrototypeOf"; "groupBy";
   "hasOwn"; "is"; "isExtensible"; "isFrozen"; "isSealed"; "keys";
   "preventExtensions"; "seal"; "setPrototypeOf"; "values"].

End Host.

(** ** Notions used in the statements *)

(** [c'] is [c] with new interfaces put in front, under names that are new
    and pairwise distinct. *)
Definition grows (c c' : list Interface) : Prop :=
  ∃ pre, c' = pre ++ c ∧ NoDup (names pre) ∧ ∀ n, n ∈ names pre → n ∉ names c.

(** The definition that [resolveInterface] looks up for [ref]. *)
Definition referenced (definitions : gmap string Schema) (ref : string) : Schema :=
  default emptySchema
    (definitions !! Js.substringFrom (String.length definitionPrefix) ref).

(** What the pass of [transformInterfaceBody] leaves in an item. *)
Definition rewriteField (matchRefTypeName : string -> string -> string) (item : Field)
    : Field :=
  if Js.startsWith (f_type item) definitionPrefix
  then mkField (f_name item) (f_optional item)
         (Js.replaceRef (f_type item)
            (matchRefTypeName definitionPrefix (f_type item) +:+ "$1"))
         (f_description item) (f_format item)
  else item.

(** An interface as [resolveInterface] registers it for a reference: built
    from the properties of the definition that the reference names. *)
Definition builtFrom (matchRefTypeName : string -> string -> string)
    (definitions : gmap string Schema) (markRequired : bool) (d : Interface) : Prop :=
  ∃ ref properties,
    s_properties (referenced definitions ref) = Some properties
    ∧ d = mkInterface (matchRefTypeName definitionPrefix ref)
            (s_description (referenced definitions ref))
            (rewriteField matchRefTypeName <$>
               propertyFields properties
                 (default [] (s_required (referenced definitions ref))) markRequired).

(** [grows], by interfaces built from the definitions of the table. *)
Definition registers (matchRefTypeName : string -> string -> string)
    (definitions : gmap string Schema) (markRequired : bool) (c c' : list Interface) : Prop :=
  ∃ pre,
    c' = pre ++ c
    ∧ NoDup (names pre)
    ∧ (∀ n, n ∈ names pre → n ∉ names c)
    ∧ Forall (builtFrom matchRefTypeName definitions markRequired) pre.

(** The references that the pass resolves. *)
Definition bodyRefs (interfaceBody : list Field) : list string :=
  Js.splitHead <$>
    List.filter (fun type => Js.startsWith type definitionPrefix) (f_type <$> interfaceBody).

(** The references in the properties of a definition. *)
Definition definitionRefs (definition : Schema) : list string :=
  match s_properties definition with
  | Some properties => bodyRefs (propertyFields properties [] false)
  | None => []
  end.

(** The names under which the definitions of the table can make
    [resolveInterface] register an interface. *)
Definition candidates (matchRefTypeName : string -> string -> string)
    (definitions : gmap string Schema) : gset string :=
  list_to_set (matchRefTypeName definitionPrefix <$>
                 (map_to_list definitions ≫= (fun entry => definitionRefs (snd entry)))).

(** One level for the call itself, one for each name that can still be
    registered, one for the guard that ends the last nested call. *)
Definition enoughFuel (matchRefTypeName : string -> string -> string)
    (definitions : gmap string Schema) : nat :=
  size (candidates matchRefTypeName definitions) + 2.

Definition nameSet (c : list Interface) : gset string := list_to_set (names c).



(** The field that the loop of [resolveParameters] appends for a
    parameter, if any. *)
Definition parameterField (parameter : ParameterV3) : option Field :=
  let schema := default emptySchema (p_schema parameter) in
  let tsKeyword := tsKeywordOf schema in
  if negb (Js.truthy tsKeyword) then None
  else Some (mkField (p_name parameter)
               (negb (default false (p_required parameter)))
               (default "" tsKeyword)
               (p_description parameter)
               (s_format schema)).

(** The interface that [resolveParameters] registers for its parameters,
    after the pass of [transformInterfaceBody]: none when no parameter
    gave a field. *)
Definition parameterInterface (matchRefTypeName : string -> string -> string)
    (interfaceName : string) (parameters : list ParameterV3) : list Interface :=
  match omap parameterField parameters with
  | [] => []
  | interfaceBody =>
      [mkInterface interfaceName None (rewriteField matchRefTypeName <$> interfaceBody)]
  end.

(** The name under which [resolveSchema] has its first interface
    registered: that of the referenced definition, or the default name for
    an inline schema. *)
Definition topName (matchRefTypeName : string -> string -> string)
    (schema : Schema) (defaultName : string) : string :=
  if bool_decide (s_type schema = Some "array")
  then matchRefTypeName definitionPrefix (default "" (s_items schema ≫= s_ref))
  else if Js.truthy (s_ref schema)
       then matchRefTypeName definitionPrefix (default "" (s_ref schema))
       else defaultName.

(** Every interface enters a collector by [unshift], at index 0: the
    interface registered last is the first element, and the one registered
    first is the last element. *)
Definition lastRegistered (collector : list Interface) : option Interface := head collector.

(** [interfaces.find((d) => d.name === name)], the first occurrence of a name. *)
Definition firstNamed (name : string) (interfaces : list Interface) : option Interface :=
  List.find (fun d => String.eqb (i_name d) name) interfaces.

(** The operation that the document has under [path] and [method]. *)
Definition operationAt (swaggerJSON : SwaggerV3) (path method : string)
    : option RequestDefinitionV3 :=
  paths swaggerJSON !! path ≫= (fun operations => operations !! method).

(** The first [$ref] among the schemas of the parameters that names a
    definition with properties: the first reference for which
    [resolveParameters] has an interface registered. *)
Fixpoint firstResolvedRef (definitions : gmap string Schema) (parameters : list ParameterV3)
    : option string :=
  match parameters with
  | [] => None
  | parameter :: rest =>
      let ref := s_ref (default emptySchema (p_schema parameter)) in
      if Js.truthy ref
         && bool_decide (is_Some (s_properties (referenced definitions (default "" ref))))
      then ref
      else firstResolvedRef definitions rest
  end.

(** The names that [matchRefTypeName] gives for the types that the pass
    of [transformInterfaceBody] rewrites begin with a character other than
    [$], which would start a pattern of the replacement. *)
Definition properNames (matchRefTypeName : string -> string -> string)
    (interfaceBody : list Field) : Prop :=
  ∀ item,
    item ∈ interfaceBody →
    Js.startsWith (f_type item) definitionPrefix = true →
    ∃ c rest, matchRefTypeName definitionPrefix (f_type item) = String c rest ∧ c ≠ "$"%char.

(** [collector.at(-1)?.name] for the collector of [resolveParameters]. *)
Definition parametersName (matchRefTypeName : string -> string -> string)
    (definitions : gmap string Schema) (interfaceName : string)
    (parameters : list ParameterV3) : option string :=
  match firstResolvedRef definitions parameters with
  | Some ref => Some (matchRefTypeName definitionPrefix ref)
  | None =>
      match omap parameterField parameters with
      | [] => None
      | _ => Some interfaceName
      end
  end.

(** ** Sample documents *)

Module Sample.

Definition ref (name : string) : Schema :=
  mkSchema None None None (Some (definitionPrefix +:+ name)) None None None.

Definition primitive (type : string) : Schema :=
  mkSchema (Some type) None None None None None None.

Definition array (items : Schema) : Schema :=
  mkSchema (Some "array") (Some items) None None None None None.

Definition object (properties : list (string * option Schema)) (required : list string)
    : Schema :=
  mkSchema (Some "object") None None None None (Some properties) (Some required).

(** [A] refers to [B], and [B] to an array of [A]. *)
Definition definitionA : Schema :=
  object [("b", Some (ref "B")); ("n", Some (primitive "integer"))] ["n"].

Definition definitionB : Schema :=
  object [("a", Some (array (ref "A"))); ("x", Some (primitive "string"))] [].

Definition cyclic : gmap string Schema :=
  <["A" := definitionA]> (<["B" := definitionB]> ∅).

(** [Owner] refers to [Missing], which the table lacks. *)
Definition owner : Schema :=
  object [("pet", Some (ref "Missing")); ("pets", Some (array (ref "Missing")))] [].


Definition pets : gmap string Schema :=
  <["Pet" := object [("name", Some (primitive "string")); ("age", Some (primitive "integer"))]
               ["name"; "age"]]> ∅.

Definition json (schema : Schema) : Content :=
  mkContent (Some [("application/json", mkMediaType (Some schema))]).

(** [GET /pets/{id}] of the specification. *)
Definition getPet : RequestDefinitionV3 :=
  mkOperation "getPetUsingGET" (Some "Find a pet") None
    (Some [mkParameter "id" "path" (Some true) None (Some (primitive "integer"))])
    None
    (<["200" := json (ref "Pet")]> ∅).

(** [PUT /pets/{id}]: the body and the response are both a [Pet]; [id] is
    declared as a query parameter, [verbose] has no schema. *)
Definition idInQuery : ParameterV3 :=
  mkParameter "id" "query" None None (Some (primitive "integer")).

Definition putPetParameters : list ParameterV3 :=
  [idInQuery;
   mkParameter "dryRun" "query" (Some true) None (Some (primitive "boolean"));
   mkParameter "verbose" "query" None None None].

Definition putPet : RequestDefinitionV3 :=
  mkOperation "putPetUsingPUT" None (Some "Replace a pet") (Some putPetParameters)
    (Some (json (ref "Pet")))
    (<["200" := json (ref "Pet")]> ∅).

(** [DELETE /pets/{id}]: [id] is described by [content], not by [schema]. *)
Definition idWithoutSchema : ParameterV3 := mkParameter "id" "path" (Some true) None None.

Definition deletePet : RequestDefinitionV3 :=
  mkOperation "deletePetUsingDELETE" None None (Some [idWithoutSchema]) None ∅.

Definition petStore : SwaggerV3 :=
  mkSwagger
    (<["/pets/{id}" := <["get" := getPet]> (<["put" := putPet]> (<["delete" := deletePet]> ∅))]> ∅)
    pets.

(** A second document.  [GET /pets] has nothing to resolve; the
    parameter of [GET /pets/search] is described by a reference. *)
Definition listPets : RequestDefinitionV3 :=
  mkOperation "listPetsUsingGET" (Some "List") (Some "All the pets") None None ∅.

Definition filterByPet : ParameterV3 :=
  mkParameter "filter" "query" None None (Some (ref "Pet")).

Definition findPets : RequestDefinitionV3 :=
  mkOperation "findPetsUsingGET" None None (Some [filterByPet]) None ∅.

Definition shop : SwaggerV3 :=
  mkSwagger (<["/pets" := <["get" := listPets]> ∅]> (<["/pets/search" := <["get" := findPets]> ∅]> ∅))
    pets.

End Sample.

(** ** The rewriting of a type expression *)

Lemma append_nil_r s : s +:+ "" = s.
Proof.
  induction s as [|c s IH]; [done|].
  change (String c (s +:+ "") = String c s). by rewrite IH.
Qed.

(** A type expression is the reference that is resolved, followed by the
    array suffix that the rewriting keeps. *)
Lemma splitHead_suffix s : Js.splitHead s +:+ default "" (Js.firstArraySuffix s) = s.
Proof.
  induction s as [|c s IH]; [done|].
  change (Js.splitHead (String c s))
    with (if Js.arraySuffixAt (String c s) then "" else String c (Js.splitHead s)).
  change (Js.firstArraySuffix (String c s))
    with (if Js.arraySuffixAt (String c s) then Some (String c s) else Js.firstArraySuffix s).
  destruct (Js.arraySuffixAt (String c s)); [done|].
  change (String c (Js.splitHead s +:+ default "" (Js.firstArraySuffix s)) = String c s).
  by rewrite IH.
Qed.



(** ** How the collector evolves *)

Lemma grows_refl c : grows c c.
Proof. exists []. split; [done|]. split; [constructor|]. intros n Hn. inversion Hn. Qed.

Lemma grows_names c c' : grows c c' → names c ⊆ names c'.
Proof.
  intros (pre & -> & _ & _) n Hn. unfold names in *.
  rewrite fmap_app, elem_of_app. by right.
Qed.

Lemma grows_NoDup c c' : grows c c' → NoDup (names c) → NoDup (names c').
Proof.
  intros (pre & -> & Hpre & Hfresh) Hc. unfold names in *.
  rewrite fmap_app. apply NoDup_app. auto.
Qed.

Lemma hasName_true name c : hasName name c = true ↔ name ∈ names c.
Proof.
  unfold hasName, names. rewrite existsb_exists, list_elem_of_fmap. split.
  - intros (d & Hd & Heq). apply String.eqb_eq in Heq. exists d.
    split; [done|]. by apply list_elem_of_In.
  - intros (d & -> & Hd). exists d. split; [by apply list_elem_of_In|].
    apply String.eqb_refl.
Qed.

Lemma hasName_false name c : hasName name c = false ↔ name ∉ names c.
Proof.
  rewrite <- hasName_true. destruct (hasName name c); split; intros; congruence.
Qed.

Lemma names_setFieldType owner idx v c : names (setFieldType owner idx v c) = names c.
Proof.
  unfold setFieldType, names.
  generalize (length c - S owner). intros k. revert k.
  induction c as [|d c IH]; intros [|k]; simpl; try done.
  f_equal. apply IH.
Qed.

(** The assignment reaches the owner and nothing else. *)
Lemma setFieldType_owner front name desc done item rest back v :
  setFieldType (length back) (length done) v
    (front ++ mkInterface name desc (done ++ item :: rest) :: back)
  = front ++ mkInterface name desc
               (done ++ mkField (f_name item) (f_optional item) v
                          (f_description item) (f_format item) :: rest) :: back.
Proof.
  unfold setFieldType.
  replace (length (front ++ mkInterface name desc (done ++ item :: rest) :: back)
           - S (length back)) with (length front + 0)
    by (rewrite length_app; simpl; lia).
  rewrite alter_app_r. simpl. do 3 f_equal.
  replace (length done) with (length done + 0) by lia.
  by rewrite alter_app_r.
Qed.

Section ResolverFacts.

Variable matchRefTypeName : string -> string -> string.

Section OneLevel.

Variable rec :
  string -> gmap string Schema -> list Interface -> bool -> option (list Interface).

Hypothesis rec_registers :
  ∀ ref definitions c markRequired c',
    rec ref definitions c markRequired = Some c' →
    registers matchRefTypeName definitions markRequired c c'.

Lemma transformInterfaceBodyFrom_spec items :
  ∀ done front name desc back definitions markRequired c',
    transformInterfaceBodyFrom matchRefTypeName rec (length done) (length back) items
      definitions (front ++ mkInterface name desc (done ++ items) :: back) markRequired
    = Some c' →
    ∃ pre,
      c' = pre ++ front
             ++ mkInterface name desc (done ++ (rewriteField matchRefTypeName <$> items)) :: back
      ∧ NoDup (names pre)
      ∧ (∀ n, n ∈ names pre → n ∉ names (front ++ mkInterface name desc [] :: back))
      ∧ Forall (builtFrom matchRefTypeName definitions markRequired) pre.
Proof.
  induction items as [|item rest IH]; intros done front name desc back definitions mark c' Hrun.
  - simpl in Hrun. injection Hrun as <-. exists []. simpl.
    split; [done|]. split; [constructor|]. split; [|constructor].
    intros n Hn. inversion Hn.
  - simpl in Hrun. unfold rewriteField at 1. simpl.
    destruct (Js.startsWith (f_type item) definitionPrefix) eqn:Hprefix.
    + destruct (rec _ _ _ _) as [c1|] eqn:Hrec; simpl in Hrun; [|done].
      apply rec_registers in Hrec as (pre1 & -> & Hnd1 & Hfresh1 & Hbuilt1).
      rewrite app_assoc, setFieldType_owner in Hrun.
      set (item' := mkField _ _ _ _ _) in Hrun.
      replace (S (length done)) with (length (done ++ [item'])) in Hrun
        by (rewrite length_app; simpl; lia).
      replace (done ++ item' :: rest) with ((done ++ [item']) ++ rest) in Hrun
        by (by rewrite <- app_assoc).
      apply IH in Hrun as (pre2 & -> & Hnd2 & Hfresh2 & Hbuilt2).
      exists (pre2 ++ pre1). rewrite <- !app_assoc. simpl.
      split; [done|]. unfold names in *. split; [|split; [|by apply Forall_app]].
      * rewrite fmap_app. apply NoDup_app. split; [done|]. split; [|done].
        intros n Hn Hn1. apply (Hfresh2 n Hn).
        rewrite !fmap_app, !elem_of_app. by left; left.
      * intros n. rewrite fmap_app, elem_of_app. intros [Hn|Hn].
        -- intros Hin. apply (Hfresh2 n Hn).
           rewrite fmap_app, elem_of_app in Hin.
           rewrite !fmap_app, !elem_of_app. simpl in *. tauto.
        -- intros Hin. apply (Hfresh1 n Hn).
           rewrite fmap_app, elem_of_app in Hin.
           rewrite !fmap_app, !elem_of_app. simpl in *. tauto.
    + replace (S (length done)) with (length (done ++ [item])) in Hrun
        by (rewrite length_app; simpl; lia).
      replace (done ++ item :: rest) with ((done ++ [item]) ++ rest) in Hrun
        by (by rewrite <- app_assoc).
      apply IH in Hrun as (pre2 & -> & Hnd2 & Hfresh2 & Hbuilt2).
      exists pre2. by rewrite <- !app_assoc.
Qed.

(** [resolveProperties] registers exactly one interface under [name],
    in front of the collector it received, and everything registered
    after it lands in front of that interface. *)
Lemma resolvePropertiesWith_spec name definition definitions c markRequired c' :
  resolvePropertiesWith matchRefTypeName rec name definition definitions c markRequired
  = Some c' →
  match s_properties (default emptySchema definition) with
  | None => c' = c
  | Some properties =>
      ∃ pre,
        c' = pre ++ mkInterface name (s_description (default emptySchema definition))
                      (rewriteField matchRefTypeName <$>
                         propertyFields properties
                           (default [] (s_required (default emptySchema definition)))
                           markRequired) :: c
        ∧ NoDup (names pre)
        ∧ (∀ n, n ∈ names pre → n ≠ name ∧ n ∉ names c)
        ∧ Forall (builtFrom matchRefTypeName definitions markRequired) pre
  end.
Proof.
  unfold resolvePropertiesWith.
  destruct (s_properties (default emptySchema definition)) as [properties|]; [|congruence].
  intros Hrun.
  apply (transformInterfaceBodyFrom_spec _ [] [] _ _ c) in Hrun
    as (pre & -> & Hnd & Hfresh & Hbuilt).
  exists pre. split; [done|]. split; [done|]. split; [|done].
  intros n Hn. specialize (Hfresh n Hn). simpl in Hfresh.
  rewrite not_elem_of_cons in Hfresh. done.
Qed.

Lemma resolveInterfaceWith_registers ref definitions c markRequired c' :
  resolveInterfaceWith matchRefTypeName rec ref definitions c markRequired = Some c' →
  registers matchRefTypeName definitions markRequired c c'.
Proof.
  unfold resolveInterfaceWith.
  assert (registers matchRefTypeName definitions markRequired c c) as Hrefl.
  { exists []. split; [done|]. split; [constructor|]. split; [|constructor].
    intros n Hn. inversion Hn. }
  destruct (String.eqb ref ""); [by intros [= <-]|].
  destruct (hasName _ c) eqn:Hhas; [by intros [= <-]|].
  apply hasName_false in Hhas.
  intros Hrun. apply resolvePropertiesWith_spec in Hrun.
  fold (referenced definitions ref) in Hrun.
  destruct (s_properties (referenced definitions ref)) as [properties|] eqn:Hprops;
    [|by subst].
  destruct Hrun as (pre & -> & Hnd & Hfresh & Hbuilt).
  exists (pre ++ [mkInterface (matchRefTypeName definitionPrefix ref)
                    (s_description (referenced definitions ref))
                    (rewriteField matchRefTypeName <$>
                       propertyFields properties
                         (default [] (s_required (referenced definitions ref)))
                         markRequired)]).
  rewrite <- app_assoc. split; [done|]. unfold names in *. rewrite fmap_app. simpl.
  split; [|split].
  - apply NoDup_app. split; [done|]. split; [|apply NoDup_singleton].
    intros n Hn. rewrite list_elem_of_singleton. by apply Hfresh.
  - intros n. rewrite elem_of_app, list_elem_of_singleton. intros [Hn| ->]; [|done].
    by apply Hfresh.
  - apply Forall_app. split; [done|]. apply Forall_singleton. by exists ref, properties.
Qed.

End OneLevel.

Lemma registers_grows definitions markRequired c c' :
  registers matchRefTypeName definitions markRequired c c' → grows c c'.
Proof. intros (pre & -> & Hnd & Hfresh & _). by exists pre. Qed.

Lemma resolveInterface_registers fuel :
  ∀ ref definitions c markRequired c',
    resolveInterface matchRefTypeName fuel ref definitions c markRequired = Some c' →
    registers matchRefTypeName definitions markRequired c c'.
Proof.
  induction fuel as [|fuel IH]; intros ref definitions c mark c'; simpl; [done|].
  by apply resolveInterfaceWith_registers.
Qed.

Lemma resolveInterface_grows fuel :
  ∀ ref definitions c markRequired c',
    resolveInterface matchRefTypeName fuel ref definitions c markRequired = Some c' →
    grows c c'.
Proof.
  intros ref definitions c mark c' Hrun.
  by eapply registers_grows, resolveInterface_registers.
Qed.

(** *** More fuel changes nothing *)

Lemma transformInterfaceBodyFrom_mono rec1 rec2 items :
  (∀ ref definitions c markRequired c',
     rec1 ref definitions c markRequired = Some c' →
     rec2 ref definitions c markRequired = Some c') →
  ∀ idx owner definitions c markRequired c',
    transformInterfaceBodyFrom matchRefTypeName rec1 idx owner items definitions c markRequired
    = Some c' →
    transformInterfaceBodyFrom matchRefTypeName rec2 idx owner items definitions c markRequired
    = Some c'.
Proof.
  intros Hrec. induction items as [|item rest IH]; intros idx owner definitions c mark c'; simpl.
  - done.
  - destruct (Js.startsWith (f_type item) definitionPrefix); [|apply IH].
    destruct (rec1 _ _ _ _) as [c1|] eqn:H1; simpl; [|done].
    rewrite (Hrec _ _ _ _ _ H1). simpl. apply IH.
Qed.

Lemma resolveInterface_S fuel :
  ∀ ref definitions c markRequired c',
    resolveInterface matchRefTypeName fuel ref definitions c markRequired = Some c' →
    resolveInterface matchRefTypeName (S fuel) ref definitions c markRequired = Some c'.
Proof.
  induction fuel as [|fuel IH]; intros ref definitions c mark c'; [done|].
  change (resolveInterfaceWith matchRefTypeName (resolveInterface matchRefTypeName fuel)
            ref definitions c mark = Some c' →
          resolveInterfaceWith matchRefTypeName (resolveInterface matchRefTypeName (S fuel))
            ref definitions c mark = Some c').
  unfold resolveInterfaceWith.
  destruct (String.eqb ref ""); [done|].
  destruct (hasName _ c); [done|].
  unfold resolvePropertiesWith.
  destruct (s_properties _); [|done].
  by apply transformInterfaceBodyFrom_mono.
Qed.

Lemma resolveInterface_fuel fuel fuel' ref definitions c markRequired c' :
  fuel ≤ fuel' →
  resolveInterface matchRefTypeName fuel ref definitions c markRequired = Some c' →
  resolveInterface matchRefTypeName fuel' ref definitions c markRequired = Some c'.
Proof.
  induction 1 as [|fuel' _ IH]; [done|].
  intros Hrun. by apply resolveInterface_S, IH.
Qed.

(** *** The fuel that is always enough *)

(** The type expressions of the fields do not depend on [required] and
    [markRequired]. *)
Lemma propertyFields_types properties required markRequired :
  f_type <$> propertyFields properties required markRequired
  = f_type <$> propertyFields properties [] false.
Proof.
  unfold propertyFields. generalize (fst <$> properties). intros keys.
  induction keys as [|propName keys IH]; simpl; [done|].
  destruct (negb (Js.truthy (tsKeywordOf _))); [done|].
  rewrite !fmap_cons. by f_equal.
Qed.

Lemma candidates_intro definitions key definition properties required markRequired ref :
  definitions !! key = Some definition →
  s_properties definition = Some properties →
  ref ∈ bodyRefs (propertyFields properties required markRequired) →
  matchRefTypeName definitionPrefix ref ∈ candidates matchRefTypeName definitions.
Proof.
  intros Hkey Hprops Href. unfold candidates.
  apply elem_of_list_to_set, list_elem_of_fmap_2, list_elem_of_bind.
  exists (key, definition). split; [|by apply elem_of_map_to_list].
  simpl. unfold definitionRefs. rewrite Hprops.
  unfold bodyRefs in *. by rewrite <- (propertyFields_types _ required markRequired).
Qed.

Lemma nameSet_grows c c' : grows c c' → nameSet c ⊆ nameSet c'.
Proof.
  intros Hg n. unfold nameSet. rewrite !elem_of_list_to_set. by apply grows_names.
Qed.

Section Loop.

Variable rec :
  string -> gmap string Schema -> list Interface -> bool -> option (list Interface).
Variable Inv : list Interface → Prop.

Hypothesis rec_grows :
  ∀ ref definitions c markRequired c',
    rec ref definitions c markRequired = Some c' → grows c c'.
Hypothesis Inv_grows : ∀ c c', Inv c → grows c c' → Inv c'.
Hypothesis Inv_names : ∀ c c', Inv c → names c = names c' → Inv c'.

Lemma transformInterfaceBodyFrom_is_Some definitions items :
  (∀ ref c markRequired,
     ref ∈ bodyRefs items → Inv c → is_Some (rec ref definitions c markRequired)) →
  ∀ idx owner c markRequired,
    Inv c →
    is_Some (transformInterfaceBodyFrom matchRefTypeName rec idx owner items
               definitions c markRequired).
Proof.
  induction items as [|item rest IH]; intros Hrec idx owner c mark Hinv; simpl; [done|].
  unfold bodyRefs in Hrec. simpl in Hrec.
  destruct (Js.startsWith (f_type item) definitionPrefix) eqn:Hprefix.
  - destruct (Hrec (Js.splitHead (f_type item)) c mark) as [c1 Hc1];
      [simpl; apply list_elem_of_here|done|].
    rewrite Hc1. simpl. apply IH.
    + intros ref c2 mark2 Href. apply Hrec. simpl. by apply list_elem_of_further.
    + apply (Inv_names c1); [|by rewrite names_setFieldType].
      apply (Inv_grows c); [done|]. by apply rec_grows in Hc1.
  - apply IH; [|done]. intros ref c2 mark2 Href. by apply Hrec.
Qed.

Lemma resolvePropertiesWith_is_Some name definition definitions c markRequired :
  (∀ properties ref c' markRequired',
     s_properties (default emptySchema definition) = Some properties →
     ref ∈ bodyRefs (propertyFields properties
                       (default [] (s_required (default emptySchema definition)))
                       markRequired) →
     Inv c' → is_Some (rec ref definitions c' markRequired')) →
  (∀ d, i_name d = name → Inv (d :: c)) →
  is_Some (resolvePropertiesWith matchRefTypeName rec name definition definitions c
             markRequired).
Proof.
  intros Hrec Hinv. unfold resolvePropertiesWith.
  destruct (s_properties (default emptySchema definition)) as [properties|] eqn:Hprops; [|done].
  apply transformInterfaceBodyFrom_is_Some; [|by apply Hinv].
  intros ref c' mark' Href Hc'. by apply (Hrec properties).
Qed.

End Loop.

Lemma default_emptySchema_properties (definition : option Schema) properties :
  s_properties (default emptySchema definition) = Some properties →
  ∃ d, definition = Some d ∧ s_properties d = Some properties.
Proof. destruct definition as [d|]; simpl; [eauto|done]. Qed.

(** A nested call succeeds when the fuel exceeds the number of candidate
    names that are not yet in the collector: the call either stops at the
    guard or registers one of them. *)
Lemma resolveInterface_unregistered fuel :
  ∀ ref definitions c markRequired,
    matchRefTypeName definitionPrefix ref ∈ candidates matchRefTypeName definitions →
    size (candidates matchRefTypeName definitions ∖ nameSet c) < fuel →
    is_Some (resolveInterface matchRefTypeName fuel ref definitions c markRequired).
Proof.
  induction fuel as [|fuel IH]; intros ref definitions c mark Hcand Hsize; [lia|].
  simpl. unfold resolveInterfaceWith.
  destruct (String.eqb ref ""); [done|].
  destruct (hasName _ c) eqn:Hhas; [done|].
  apply hasName_false in Hhas.
  apply (resolvePropertiesWith_is_Some _
           (fun c' => size (candidates matchRefTypeName definitions ∖ nameSet c') < fuel)).
  - apply resolveInterface_grows.
  - intros c1 c2 Hc1 Hg. apply nameSet_grows in Hg.
    eapply Nat.le_lt_trans; [|exact Hc1]. by apply subseteq_size, difference_mono_l.
  - intros c1 c2 Hc1 Heq. unfold nameSet in *. by rewrite <- Heq.
  - intros properties ref' c' mark' Hprops Href Hc'.
    apply default_emptySchema_properties in Hprops as (d & Hd & Hprops).
    apply IH; [|done]. by eapply candidates_intro.
  - intros d Hd.
    assert (candidates matchRefTypeName definitions ∖ nameSet (d :: c) ⊂ candidates matchRefTypeName definitions ∖ nameSet c)
      as Hsub; [|apply subset_size in Hsub; lia].
    unfold nameSet, names in *. rewrite fmap_cons, list_to_set_cons, Hd.
    set (name := matchRefTypeName definitionPrefix ref) in *.
    split.
    + apply difference_mono_l. intros x Hx. apply elem_of_union. by right.
    + intros Hsub. specialize (Hsub name).
      rewrite !elem_of_difference, elem_of_union, elem_of_singleton,
        elem_of_list_to_set in Hsub.
      tauto.
Qed.

Lemma resolveInterface_enough fuel ref definitions c markRequired :
  enoughFuel matchRefTypeName definitions ≤ fuel →
  is_Some (resolveInterface matchRefTypeName fuel ref definitions c markRequired).
Proof.
  unfold enoughFuel. destruct fuel as [|fuel]; [lia|]. intros Hfuel.
  simpl. unfold resolveInterfaceWith.
  destruct (String.eqb ref ""); [done|].
  destruct (hasName _ c); [done|].
  apply (resolvePropertiesWith_is_Some _ (fun _ => True)); try done.
  - apply resolveInterface_grows.
  - intros properties ref' c' mark' Hprops Href _.
    apply default_emptySchema_properties in Hprops as (d & Hd & Hprops).
    apply resolveInterface_unregistered; [by eapply candidates_intro|].
    apply Nat.le_lt_trans with (size (candidates matchRefTypeName definitions)); [|lia].
    apply subseteq_size. intros x. rewrite elem_of_difference. tauto.
Qed.

Lemma resolveProperties_enough fuel name definition definitions c markRequired :
  enoughFuel matchRefTypeName definitions ≤ fuel →
  is_Some (resolveProperties matchRefTypeName fuel name definition definitions c markRequired).
Proof.
  intros Hfuel. unfold resolveProperties.
  apply (resolvePropertiesWith_is_Some _ (fun _ => True)); try done.
  - apply resolveInterface_grows.
  - intros. by apply resolveInterface_enough.
Qed.

(** *** What one call of [resolveInterface] does *)

Lemma resolveInterface_cases fuel ref definitions c markRequired c' :
  resolveInterface matchRefTypeName fuel ref definitions c markRequired = Some c' →
  (c' = c
   ∧ (ref = "" ∨ matchRefTypeName definitionPrefix ref ∈ names c
      ∨ s_properties (referenced definitions ref) = None))
  ∨ ((ref ≠ "") ∧ (matchRefTypeName definitionPrefix ref ∉ names c)
     ∧ ∃ properties pre,
         s_properties (referenced definitions ref) = Some properties
         ∧ c' = pre ++ mkInterface (matchRefTypeName definitionPrefix ref)
                         (s_description (referenced definitions ref))
                         (rewriteField matchRefTypeName <$>
                            propertyFields properties
                              (default [] (s_required (referenced definitions ref)))
                              markRequired) :: c
         ∧ NoDup (names pre)
         ∧ (∀ n, n ∈ names pre → n ≠ matchRefTypeName definitionPrefix ref ∧ n ∉ names c)
         ∧ Forall (builtFrom matchRefTypeName definitions markRequired) pre).
Proof.
  destruct fuel as [|fuel]; [done|]. simpl. unfold resolveInterfaceWith.
  destruct (String.eqb ref "") eqn:Hempty.
  { apply String.eqb_eq in Hempty. intros [= <-]. left. auto. }
  apply String.eqb_neq in Hempty.
  destruct (hasName _ c) eqn:Hhas.
  { apply hasName_true in Hhas. intros [= <-]. left. auto. }
  apply hasName_false in Hhas.
  intros Hrun. apply resolvePropertiesWith_spec in Hrun; [|apply resolveInterface_registers].
  fold (referenced definitions ref) in Hrun.
  destruct (s_properties (referenced definitions ref)) as [properties|] eqn:Hprops.
  - right. destruct Hrun as (pre & -> & Hnd & Hfresh & Hbuilt).
    split; [done|]. split; [done|]. exists properties, pre. auto.
  - left. auto.
Qed.





(** *** Termination and idempotence of [resolveInterface] *)

Lemma resolveInterface_result ref definitions c markRequired :
  ∃ c', ∀ fuel,
    enoughFuel matchRefTypeName definitions ≤ fuel →
    resolveInterface matchRefTypeName fuel ref definitions c markRequired = Some c'.
Proof.
  destruct (resolveInterface_enough (enoughFuel matchRefTypeName definitions)
              ref definitions c markRequired) as [c' Hc']; [done|].
  exists c'. intros fuel Hfuel. by eapply resolveInterface_fuel.
Qed.

(** C8. For every table of definitions, cyclic or not, every reference,
    and every collector, [resolveInterface] returns once the fuel reaches
    [enoughFuel], a bound computed from the table alone, and returns the
    same collector for every larger fuel.  The interfaces it adds are put
    in front of the collector under names that are pairwise distinct and
    absent from it, so a collector without duplicate names stays without
    duplicate names. *)
Theorem resolveInterface_terminates ref definitions c markRequired :
  ∃ c',
    (∀ fuel, enoughFuel matchRefTypeName definitions ≤ fuel →
       resolveInterface matchRefTypeName fuel ref definitions c markRequired = Some c')
    ∧ grows c c'
    ∧ (NoDup (names c) → NoDup (names c')).
Proof.
  destruct (resolveInterface_result ref definitions c markRequired) as [c' Hc'].
  exists c'. split; [done|].
  assert (grows c c') as Hg by (by eapply resolveInterface_grows, (Hc' _ (Nat.le_refl _))).
  split; [done|]. by apply grows_NoDup.
Qed.


(** *** The fields that [resolveProperties] builds *)

Lemma rewriteField_name item : f_name (rewriteField matchRefTypeName item) = f_name item.
Proof. unfold rewriteField. by destruct (Js.startsWith _ _). Qed.

Lemma rewriteField_optional item :
  f_optional (rewriteField matchRefTypeName item) = f_optional item.
Proof. unfold rewriteField. by destruct (Js.startsWith _ _). Qed.

Lemma propertyFields_optional properties required markRequired f :
  f ∈ propertyFields properties required markRequired →
  f_optional f = negb markRequired || negb (bool_decide (f_name f ∈ required)).
Proof.
  unfold propertyFields. rewrite list_elem_of_omap. intros (propName & _ & Hf).
  destruct (negb (Js.truthy _)); [done|]. by injection Hf as <-.
Qed.

Lemma resolveProperties_registers fuel name definition properties definitions c markRequired c' :
  s_properties definition = Some properties →
  resolveProperties matchRefTypeName fuel name (Some definition) definitions c markRequired
  = Some c' →
  ∃ pre,
    c' = pre ++ mkInterface name (s_description definition)
                  (rewriteField matchRefTypeName <$>
                     propertyFields properties (default [] (s_required definition))
                       markRequired) :: c
    ∧ NoDup (names pre)
    ∧ (∀ n, n ∈ names pre → n ≠ name ∧ n ∉ names c)
    ∧ Forall (builtFrom matchRefTypeName definitions markRequired) pre.
Proof.
  intros Hprops Hc'.
  apply resolvePropertiesWith_spec in Hc'; [|apply resolveInterface_registers].
  simpl in Hc'. by rewrite Hprops in Hc'.
Qed.

Lemma optional_law properties required markRequired f :
  f ∈ rewriteField matchRefTypeName <$> propertyFields properties required markRequired →
  f_optional f = false ↔ markRequired = true ∧ f_name f ∈ required.
Proof.
  rewrite list_elem_of_fmap. intros (item & -> & Hitem).
  rewrite rewriteField_name, rewriteField_optional.
  rewrite (propertyFields_optional _ _ _ _ Hitem).
  destruct markRequired; simpl.
  - rewrite negb_false_iff, bool_decide_eq_true. tauto.
  - split; [done|]. by intros [? _].
Qed.

(** C5. [resolveProperties], given a definition with properties,
    registers an interface under the given name, with one field for each
    property that has a type expression; each of its fields is non-optional
    exactly when [markRequired] is true and the name of the field is in the
    [required] list of the definition (empty when the definition has
    none).  The same holds of the interfaces that the call registers for
    the nested references, each with the [required] list of the definition
    that its reference names. *)
Theorem resolveProperties_optional fuel name definition properties definitions c markRequired :
  enoughFuel matchRefTypeName definitions ≤ fuel →
  s_properties definition = Some properties →
  ∃ pre fields,
    resolveProperties matchRefTypeName fuel name (Some definition) definitions c markRequired
    = Some (pre ++ mkInterface name (s_description definition) fields :: c)
    ∧ f_name <$> fields
      = f_name <$> propertyFields properties (default [] (s_required definition)) markRequired
    ∧ (∀ f, f ∈ fields →
         (f_optional f = false
          ↔ markRequired = true ∧ f_name f ∈ default [] (s_required definition)))
    ∧ ∀ d, d ∈ pre →
        ∃ ref,
          i_name d = matchRefTypeName definitionPrefix ref
          ∧ ∀ f, f ∈ i_fields d →
              (f_optional f = false
               ↔ markRequired = true
                 ∧ f_name f ∈ default [] (s_required (referenced definitions ref))).
Proof.
  intros Hfuel Hprops.
  destruct (resolveProperties_enough fuel name (Some definition) definitions c markRequired
              Hfuel) as [c' Hrun].
  destruct (resolveProperties_registers fuel name definition properties definitions c
              markRequired c' Hprops Hrun) as (pre & -> & _ & _ & Hbuilt).
  eexists pre, _. split; [exact Hrun|]. split; [|split].
  - rewrite <- list_fmap_compose. apply list_fmap_ext. intros k item _. simpl.
    apply rewriteField_name.
  - intros f. apply optional_law.
  - intros d Hd. rewrite Forall_forall in Hbuilt.
    destruct (Hbuilt d Hd) as (ref & properties' & _ & ->).
    exists ref. split; [done|]. intros f. apply optional_law.
Qed.

(** *** A reference to a definition that the table lacks *)





(** *** [resolveSchema] *)

Lemma truthy_inv o : Js.truthy o = true → ∃ r, o = Some r ∧ r ≠ "".
Proof.
  destruct o as [r|]; [|done]. simpl. intros Hr. exists r. split; [done|].
  apply String.eqb_neq. by apply negb_true_iff.
Qed.

Lemma lastName_snoc pre top : lastName (pre ++ [top]) = Some (i_name top).
Proof. unfold lastName. by rewrite last_snoc. Qed.

(** A call on the empty collector registers the interface of the
    reference at the end of the collector. *)
Lemma resolveInterface_top fuel r definitions markRequired :
  enoughFuel matchRefTypeName definitions ≤ fuel →
  r ≠ "" →
  match s_properties (referenced definitions r) with
  | Some properties =>
      ∃ pre fields,
        resolveInterface matchRefTypeName fuel r definitions [] markRequired
        = Some (pre ++ [mkInterface (matchRefTypeName definitionPrefix r)
                          (s_description (referenced definitions r)) fields])
  | None => resolveInterface matchRefTypeName fuel r definitions [] markRequired = Some []
  end.
Proof.
  intros Hfuel Hr.
  destruct (resolveInterface_enough fuel r definitions [] markRequired Hfuel) as [c' Hc'].
  rewrite Hc'.
  destruct (resolveInterface_cases _ _ _ _ _ _ Hc') as
    [[-> Hwhy]|(_ & _ & properties & pre & Hprops & -> & _)].
  - destruct Hwhy as [?|[Hin| ->]]; [done| |done]. inversion Hin.
  - rewrite Hprops. by eexists pre, _.
Qed.

Lemma resolveProperties_top fuel name schema definitions markRequired :
  enoughFuel matchRefTypeName definitions ≤ fuel →
  match s_properties schema with
  | Some properties =>
      ∃ pre fields,
        resolveProperties matchRefTypeName fuel name (Some schema) definitions [] markRequired
        = Some (pre ++ [mkInterface name (s_description schema) fields])
  | None =>
      resolveProperties matchRefTypeName fuel name (Some schema) definitions [] markRequired
      = Some []
  end.
Proof.
  intros Hfuel. destruct (s_properties schema) as [properties|] eqn:Hprops.
  - destruct (resolveProperties_enough fuel name (Some schema) definitions [] markRequired
                Hfuel) as [c' Hrun].
    destruct (resolveProperties_registers fuel name schema properties definitions []
                markRequired c' Hprops Hrun) as (pre & -> & _).
    by eexists pre, _.
  - unfold resolveProperties, resolvePropertiesWith. simpl. by rewrite Hprops.
Qed.

Lemma append_brackets_not_empty k : k +:+ "[]" ≠ "".
Proof. by destruct k. Qed.

Lemma javaTypeToTsKeyword_not_empty schema k :
  javaTypeToTsKeyword schema = Some k → k ≠ "".
Proof.
  destruct schema as [type items format ref description properties required].
  simpl. destruct (_ || _); [by intros [= <-]|].
  case_bool_decide; [by intros [= <-]|].
  case_bool_decide as Htype.
  { intros [= <-] Hempty. rewrite Hempty in Htype.
    repeat (apply elem_of_cons in Htype as [Htype|Htype]; [discriminate|]).
    inversion Htype. }
  destruct (String.eqb _ "array"); [|done].
  destruct (Js.truthy _); [|done].
  destruct (match items with Some _ => _ | None => _ end) as [k'|]; [|done].
  intros [= <-]. apply append_brackets_not_empty.
Qed.

Lemma javaTypeToTsKeyword_primitive schema type :
  s_type schema = Some type →
  (type = "file" ∨ type ≠ "" ∧ s_format schema = Some "binary" →
   javaTypeToTsKeyword schema = Some "File")
  ∧ (s_format schema ≠ Some "binary" → type ∈ ["number"; "integer"] →
     javaTypeToTsKeyword schema = Some "number")
  ∧ (s_format schema ≠ Some "binary" → type ∈ ["string"; "boolean"; "object"] →
     javaTypeToTsKeyword schema = Some type).
Proof.
  destruct schema as [type' items format ref description properties required].
  simpl. intros ->. simpl. split; [|split].
  - intros [->|[_ ->]]; [done|]. simpl. by rewrite orb_true_r.
  - intros Hformat Htype. rewrite (bool_decide_eq_false_2 _ Hformat).
    repeat (apply elem_of_cons in Htype as [->|Htype]; [done|]). inversion Htype.
  - intros Hformat Htype. rewrite (bool_decide_eq_false_2 _ Hformat).
    repeat (apply elem_of_cons in Htype as [->|Htype]; [done|]). inversion Htype.
Qed.

Lemma javaTypeToTsKeyword_array schema :
  s_type schema = Some "array" →
  s_format schema ≠ Some "binary" →
  Js.truthy (s_items schema ≫= s_ref) = false →
  javaTypeToTsKeyword schema
  = if Js.truthy (s_items schema ≫= s_type)
    then (fun k => k +:+ "[]") <$> (s_items schema ≫= javaTypeToTsKeyword)
    else None.
Proof.
  destruct schema as [type items format ref description properties required].
  simpl. intros -> Hformat Href. simpl.
  rewrite (bool_decide_eq_false_2 _ Hformat).
  destruct items as [items|]; simpl in *; [|done].
  rewrite Href. destruct (Js.truthy (s_type items)); [|done].
  destruct (javaTypeToTsKeyword items) as [k|] eqn:Hk; [|done].
  apply javaTypeToTsKeyword_not_empty in Hk.
  simpl. by rewrite (proj2 (String.eqb_neq k "") Hk).
Qed.

(** C3. For a schema whose [type] is ['array']: when [items.$ref] is
    present and names a definition with properties, the name returned is
    the name under which the interface of that definition is registered, as
    [matchRefTypeName] gives it for the reference, and that interface is
    the last element of the collector.  When [items] has no [$ref], the
    collector stays empty and the name is the mapping of the type of the
    items followed by [[]]: [File[]] for [file] or the format [binary],
    [number[]] for [number] and [integer], the type itself and [[]] for
    [string], [boolean] and [object]; there is no name when [items] has no
    type.  An array whose own format is [binary] is a [File]. *)
Theorem resolveSchema_array fuel schema definitions defaultName :
  s_type schema = Some "array" →
  enoughFuel matchRefTypeName definitions ≤ fuel →
  ∃ collector name,
    resolveSchema matchRefTypeName fuel schema definitions defaultName = Some (collector, name)
    ∧ if Js.truthy (s_items schema ≫= s_ref)
      then ∀ properties,
             s_properties (referenced definitions (default "" (s_items schema ≫= s_ref)))
             = Some properties →
             name = Some (matchRefTypeName definitionPrefix
                            (default "" (s_items schema ≫= s_ref)))
             ∧ ∃ pre fields,
                 collector
                 = pre ++ [mkInterface
                             (matchRefTypeName definitionPrefix
                                (default "" (s_items schema ≫= s_ref)))
                             (s_description
                                (referenced definitions (default "" (s_items schema ≫= s_ref))))
                             fields]
      else collector = []
           ∧ (s_format schema = Some "binary" → name = Some "File")
           ∧ (s_format schema ≠ Some "binary" →
              ∀ type,
                s_items schema ≫= s_type = Some type →
                (type = "file" ∨ type ≠ "" ∧ s_items schema ≫= s_format = Some "binary" →
                 name = Some "File[]")
                ∧ (s_items schema ≫= s_format ≠ Some "binary" →
                   type ∈ ["number"; "integer"] → name = Some "number[]")
                ∧ (s_items schema ≫= s_format ≠ Some "binary" →
                   type ∈ ["string"; "boolean"; "object"] → name = Some (type +:+ "[]")))
           ∧ (s_format schema ≠ Some "binary" →
              Js.truthy (s_items schema ≫= s_type) = false → name = None).
Proof.
  intros Harray Hfuel. unfold resolveSchema.
  rewrite (bool_decide_eq_true_2 _ Harray).
  destruct (Js.truthy (s_items schema ≫= s_ref)) eqn:Hitems; cycle 1.
  { eexists _, _. split; [done|]. split; [done|]. split; [|split].
    - intros Hformat.
      destruct schema as [type items format ref description properties required].
      simpl in *. subst. reflexivity.
    - intros Hformat type Htype.
      rewrite (javaTypeToTsKeyword_array schema Harray Hformat Hitems).
      destruct (s_items schema) as [items|]; simpl in *; [|done].
      rewrite Htype.
      destruct (javaTypeToTsKeyword_primitive items type Htype) as (Hfile & Hnumber & Hsame).
      split; [|split].
      + intros Hcase. assert (type ≠ "") as Hne by (destruct Hcase as [->|[? _]]; done).
        simpl. rewrite (proj2 (String.eqb_neq type "") Hne). simpl.
        by rewrite (Hfile Hcase).
      + intros Hformat' Hin. rewrite (Hnumber Hformat' Hin).
        assert (type ≠ "") as Hne.
        { intros ->. repeat (apply elem_of_cons in Hin as [Hin|Hin]; [done|]).
          inversion Hin. }
        simpl. by rewrite (proj2 (String.eqb_neq type "") Hne).
      + intros Hformat' Hin. rewrite (Hsame Hformat' Hin).
        assert (type ≠ "") as Hne.
        { intros ->. repeat (apply elem_of_cons in Hin as [Hin|Hin]; [done|]).
          inversion Hin. }
        simpl. by rewrite (proj2 (String.eqb_neq type "") Hne).
    - intros Hformat Htype.
      rewrite (javaTypeToTsKeyword_array schema Harray Hformat Hitems). by rewrite Htype. }
  apply truthy_inv in Hitems as (r & -> & Hr). simpl.
  pose proof (resolveInterface_top fuel r definitions true Hfuel Hr) as Htop.
  destruct (s_properties (referenced definitions r)) as [properties|].
  - destruct Htop as (pre & fields & ->). simpl. eexists _, _. split; [done|].
    intros _ _. rewrite lastName_snoc. split; [done|]. by exists pre, fields.
  - rewrite Htop. simpl. eexists _, _. split; [done|]. done.
Qed.

(** C4, as the code has it.  The name that [resolveSchema] returns is
    the name of the last element of its collector, or the result of
    [javaTypeToTsKeyword] for an array without [items.$ref], in which case
    the collector is empty.  A collector that is not empty ends with the
    interface that was registered first, under the name of the referenced
    definition or the default name; the interfaces of its nested
    references, registered after it, lie in front of it. *)
Theorem resolveSchema_name fuel schema definitions defaultName :
  enoughFuel matchRefTypeName definitions ≤ fuel →
  ∃ collector name,
    resolveSchema matchRefTypeName fuel schema definitions defaultName = Some (collector, name)
    ∧ ((s_type schema = Some "array" ∧ Js.truthy (s_items schema ≫= s_ref) = false
        ∧ collector = [] ∧ name = javaTypeToTsKeyword schema)
       ∨ (name = lastName collector
          ∧ (collector = []
             ∨ ∃ pre top,
                 collector = pre ++ [top]
                 ∧ i_name top = topName matchRefTypeName schema defaultName))).
Proof.
  intros Hfuel. unfold resolveSchema, topName.
  destruct (bool_decide (s_type schema = Some "array")) eqn:Harray.
  - apply bool_decide_eq_true in Harray.
    destruct (Js.truthy (s_items schema ≫= s_ref)) eqn:Hitems.
    + apply truthy_inv in Hitems as (r & -> & Hr). simpl.
      pose proof (resolveInterface_top fuel r definitions true Hfuel Hr) as Htop.
      destruct (s_properties (referenced definitions r)) as [properties|].
      * destruct Htop as (pre & fields & ->). simpl. eexists _, _. split; [done|].
        right. split; [done|]. right. by eexists pre, _.
      * rewrite Htop. simpl. eexists _, _. split; [done|]. right. auto.
    + eexists _, _. split; [done|]. left. auto.
  - destruct (Js.truthy (s_ref schema)) eqn:Href.
    + apply truthy_inv in Href as (r & -> & Hr). simpl.
      pose proof (resolveInterface_top fuel r definitions true Hfuel Hr) as Htop.
      destruct (s_properties (referenced definitions r)) as [properties|].
      * destruct Htop as (pre & fields & ->). simpl. eexists _, _. split; [done|].
        right. split; [done|]. right. by eexists pre, _.
      * rewrite Htop. simpl. eexists _, _. split; [done|]. right. auto.
    + pose proof (resolveProperties_top fuel defaultName schema definitions true Hfuel) as Htop.
      destruct (s_properties schema) as [properties|].
      * destruct Htop as (pre & fields & ->). simpl. eexists _, _. split; [done|].
        right. split; [done|]. right. by eexists pre, _.
      * rewrite Htop. simpl. eexists _, _. split; [done|]. right. auto.
Qed.

(** *** [resolveParameters] *)

Lemma grows_trans c1 c2 c3 : grows c1 c2 → grows c2 c3 → grows c1 c3.
Proof.
  intros (pre1 & -> & Hnd1 & Hfresh1) (pre2 & -> & Hnd2 & Hfresh2).
  exists (pre2 ++ pre1). rewrite <- app_assoc. split; [done|].
  unfold names in *. rewrite fmap_app. split.
  - apply NoDup_app. split; [done|]. split; [|done].
    intros n Hn Hn1. apply (Hfresh2 n Hn). rewrite fmap_app, elem_of_app. by left.
  - intros n. rewrite elem_of_app. intros [Hn|Hn]; [|by apply Hfresh1].
    intros Hin. apply (Hfresh2 n Hn). rewrite fmap_app, elem_of_app. by right.
Qed.

Lemma parameterFields_spec fuel parameters :
  ∀ definitions c interfaceBody,
    enoughFuel matchRefTypeName definitions ≤ fuel →
    ∃ c',
      parameterFields matchRefTypeName fuel parameters definitions c interfaceBody
      = Some (c', interfaceBody ++ omap parameterField parameters)
      ∧ grows c c'.
Proof.
  induction parameters as [|parameter rest IH]; intros definitions c body Hfuel.
  - exists c. simpl. rewrite app_nil_r. split; [done|apply grows_refl].
  - simpl.
    assert (∃ c1,
              (if Js.truthy (s_ref (default emptySchema (p_schema parameter)))
               then resolveInterface matchRefTypeName fuel
                      (default "" (s_ref (default emptySchema (p_schema parameter))))
                      definitions c true
               else Some c) = Some c1
              ∧ grows c c1) as (c1 & -> & Hg1).
    { destruct (Js.truthy _).
      - destruct (resolveInterface_enough fuel
                    (default "" (s_ref (default emptySchema (p_schema parameter))))
                    definitions c true Hfuel) as [c1 Hc1].
        exists c1. split; [done|]. by eapply resolveInterface_grows.
      - exists c. split; [done|apply grows_refl]. }
    simpl. unfold parameterField at 1.
    destruct (negb (Js.truthy (tsKeywordOf _))).
    + destruct (IH definitions c1 body Hfuel) as (c' & -> & Hg).
      exists c'. split; [done|]. by eapply grows_trans.
    + destruct (IH definitions c1 (body ++ [mkField (p_name parameter)
                  (negb (default false (p_required parameter)))
                  (default "" (tsKeywordOf (default emptySchema (p_schema parameter))))
                  (p_description parameter)
                  (s_format (default emptySchema (p_schema parameter)))]) Hfuel)
        as (c' & -> & Hg).
      exists c'. rewrite <- app_assoc. split; [done|]. by eapply grows_trans.
Qed.

(** [resolveParameters] returns the interface of the parameters between
    the interfaces that the pass registered and those that the loop
    registered. *)
Lemma resolveParameters_spec fuel interfaceName parameters definitions :
  enoughFuel matchRefTypeName definitions ≤ fuel →
  ∃ pre refs,
    resolveParameters matchRefTypeName fuel interfaceName parameters definitions
    = Some (pre ++ parameterInterface matchRefTypeName interfaceName parameters ++ refs).
Proof.
  intros Hfuel. unfold resolveParameters, parameterInterface.
  destruct (parameterFields_spec fuel parameters definitions [] [] Hfuel) as (refs & -> & _).
  simpl. destruct (omap parameterField parameters) as [|item body] eqn:Hbody.
  - simpl. by exists [], refs.
  - rewrite bool_decide_eq_true_2 by done.
    unfold transformInterfaceBody.
    destruct (transformInterfaceBodyFrom_is_Some
                (resolveInterface matchRefTypeName fuel) (fun _ => True)
                (resolveInterface_grows fuel) ltac:(done) ltac:(done)
                definitions (item :: body)
                ltac:(intros; by apply resolveInterface_enough)
                0 (length refs) (mkInterface interfaceName None (item :: body) :: refs) true I)
      as [c' Hc'].
    rewrite Hc'.
    apply (transformInterfaceBodyFrom_spec _ (resolveInterface_registers fuel) _ [] [] _ _ refs)
      in Hc' as (pre & -> & _).
    by exists pre, refs.
Qed.

Lemma parameterField_related parameters :
  Forall2 (fun f parameter =>
             f_name f = p_name parameter
             ∧ (f_optional f = true ↔ default false (p_required parameter) = false))
    (rewriteField matchRefTypeName <$> omap parameterField parameters)
    (filter (fun parameter => is_Some (parameterField parameter)) parameters).
Proof.
  induction parameters as [|parameter rest IH]; [constructor|].
  rewrite filter_cons. simpl.
  destruct (parameterField parameter) as [f|] eqn:Hf.
  - rewrite decide_True by done. rewrite fmap_cons. constructor; [|done].
    rewrite rewriteField_name, rewriteField_optional.
    unfold parameterField in Hf. destruct (negb (Js.truthy _)); [done|].
    injection Hf as <-. simpl. split; [done|]. apply negb_true_iff.
  - rewrite decide_False; [done|]. by intros [? ?].
Qed.

(** C10. [resolveParameters] returns a collector that holds the
    interface of the parameters, when one of them gave a field.  Its
    fields stand, in order, for the parameters that have a type
    expression; each has the name of its parameter and is optional exactly
    when the [required] flag of that parameter is absent or false.  The
    table of definitions and its [required] lists do not enter the
    relation. *)
Theorem resolveParameters_optional fuel interfaceName parameters definitions :
  enoughFuel matchRefTypeName definitions ≤ fuel →
  ∃ pre refs,
    resolveParameters matchRefTypeName fuel interfaceName parameters definitions
    = Some (pre ++ parameterInterface matchRefTypeName interfaceName parameters ++ refs)
    ∧ ∀ d, d ∈ parameterInterface matchRefTypeName interfaceName parameters →
        i_name d = interfaceName
        ∧ Forall2 (fun f parameter =>
                     f_name f = p_name parameter
                     ∧ (f_optional f = true ↔ default false (p_required parameter) = false))
            (i_fields d)
            (filter (fun parameter => is_Some (parameterField parameter)) parameters).
Proof.
  intros Hfuel.
  destruct (resolveParameters_spec fuel interfaceName parameters definitions Hfuel)
    as (pre & refs & Hrun).
  exists pre, refs. split; [done|].
  intros d. unfold parameterInterface.
  pose proof (parameterField_related parameters) as Hrel.
  destruct (omap parameterField parameters) as [|item body].
  - intros Hd. inversion Hd.
  - rewrite list_elem_of_singleton. by intros ->.
Qed.

(** *** Path and query parameters *)

Variable toFirstUpperCase : string -> string.
Variable objectStatics : list string.

Lemma parameterInterface_field interfaceName parameters parameter f :
  parameter ∈ parameters →
  parameterField parameter = Some f →
  ∃ fields,
    parameterInterface matchRefTypeName interfaceName parameters
    = [mkInterface interfaceName None fields]
    ∧ rewriteField matchRefTypeName f ∈ fields.
Proof.
  intros Hin Hf. unfold parameterInterface.
  assert (f ∈ omap parameterField parameters) as Hbody
    by (apply list_elem_of_omap; eauto).
  destruct (omap parameterField parameters) as [|item body]; [inversion Hbody|].
  eexists. split; [done|]. by apply list_elem_of_fmap_2.
Qed.

Lemma parameterInterface_names interfaceName parameters d f :
  d ∈ parameterInterface matchRefTypeName interfaceName parameters →
  f ∈ i_fields d →
  ∃ parameter, parameter ∈ parameters ∧ f_name f = p_name parameter.
Proof.
  unfold parameterInterface.
  destruct (omap parameterField parameters) as [|item body] eqn:Hbody; [by inversion 1|].
  rewrite list_elem_of_singleton. intros ->. unfold i_fields.
  rewrite list_elem_of_fmap. intros (f0 & -> & Hf0).
  rewrite <- Hbody in Hf0.
  apply list_elem_of_omap in Hf0 as (parameter & Hin & Hf0).
  exists parameter. split; [done|]. rewrite rewriteField_name.
  unfold parameterField in Hf0. destruct (negb (Js.truthy _)); [done|].
  by injection Hf0 as <-.
Qed.

Lemma pathParameters_spec pathVars definition parameter :
  parameter ∈ pathParameters pathVars definition
  ↔ parameter ∈ default [] (parameters definition)
    ∧ (p_in parameter = "path" ∨ p_name parameter ∈ pathVars).
Proof.
  unfold pathParameters. destruct (parameters definition) as [l|]; simpl.
  - rewrite list_elem_of_In, List.filter_In, <- list_elem_of_In, orb_true_iff,
      String.eqb_eq, bool_decide_eq_true. done.
  - split; [by inversion 1|]. by intros [? _].
Qed.

Lemma queryParameters_spec pathVars definition parameter :
  parameter ∈ queryParameters pathVars definition
  ↔ parameter ∈ default [] (parameters definition)
    ∧ p_in parameter = "query" ∧ p_name parameter ∉ pathVars.
Proof.
  unfold queryParameters. destruct (parameters definition) as [l|]; simpl.
  - rewrite list_elem_of_In, List.filter_In, <- list_elem_of_In, andb_true_iff,
      String.eqb_eq, negb_true_iff, bool_decide_eq_false. done.
  - split; [by inversion 1|]. by intros [? _].
Qed.

(** C9, as the code has it.  A parameter whose name is one of the
    variables in braces of the path is among the parameters that
    [resolvePath] keeps, whatever its [in] says, and no parameter of that
    name is among those that [resolveQuery] keeps.  Hence the interface
    that [resolvePath] registers for its parameters has the field of this
    parameter, provided the parameter has a type expression (the others
    give no field), and the interface that [resolveQuery] registers has no
    field of that name. *)
Theorem path_variable_parameter fuel definition definitions path parameter :
  parameter ∈ default [] (parameters definition) →
  p_name parameter ∈ pathVariables path →
  enoughFuel matchRefTypeName definitions ≤ fuel →
  parameter ∈ pathParameters (pathVariables path) definition
  ∧ (∀ other, other ∈ queryParameters (pathVariables path) definition →
       p_name other ≠ p_name parameter)
  ∧ (∃ pre refs,
       resolvePath matchRefTypeName toFirstUpperCase fuel (pathVariables path)
         definition definitions
       = Some (pre ++ parameterInterface matchRefTypeName
                        (toFirstUpperCase (parseOperationId (operationId definition))
                         +:+ "PathVar")
                        (pathParameters (pathVariables path) definition) ++ refs)
       ∧ ∀ f, parameterField parameter = Some f →
           ∃ fields,
             parameterInterface matchRefTypeName
               (toFirstUpperCase (parseOperationId (operationId definition)) +:+ "PathVar")
               (pathParameters (pathVariables path) definition)
             = [mkInterface
                  (toFirstUpperCase (parseOperationId (operationId definition)) +:+ "PathVar")
                  None fields]
             ∧ rewriteField matchRefTypeName f ∈ fields)
  ∧ (∃ pre refs,
       resolveQuery matchRefTypeName toFirstUpperCase fuel (pathVariables path)
         definition definitions
       = Some (pre ++ parameterInterface matchRefTypeName
                        (toFirstUpperCase (parseOperationId (operationId definition))
                         +:+ "Query")
                        (queryParameters (pathVariables path) definition) ++ refs)
       ∧ ∀ d f,
           d ∈ parameterInterface matchRefTypeName
                 (toFirstUpperCase (parseOperationId (operationId definition)) +:+ "Query")
                 (queryParameters (pathVariables path) definition) →
           f ∈ i_fields d → f_name f ≠ p_name parameter).
Proof.
  intros Hin Hname Hfuel.
  assert (parameter ∈ pathParameters (pathVariables path) definition) as Hpath
    by (apply pathParameters_spec; auto).
  assert (∀ other, other ∈ queryParameters (pathVariables path) definition →
                   p_name other ≠ p_name parameter) as Hquery.
  { intros other Hother Heq. apply queryParameters_spec in Hother as (_ & _ & Hnot).
    apply Hnot. by rewrite Heq. }
  split; [done|]. split; [done|]. split.
  - unfold resolvePath.
    destruct (resolveParameters_spec fuel
                (toFirstUpperCase (parseOperationId (operationId definition)) +:+ "PathVar")
                (pathParameters (pathVariables path) definition) definitions Hfuel)
      as (pre & refs & Hrun).
    exists pre, refs. split; [done|].
    intros f Hf. by eapply parameterInterface_field.
  - unfold resolveQuery.
    destruct (resolveParameters_spec fuel
                (toFirstUpperCase (parseOperationId (operationId definition)) +:+ "Query")
                (queryParameters (pathVariables path) definition) definitions Hfuel)
      as (pre & refs & Hrun).
    exists pre, refs. split; [done|].
    intros d f Hd Hf.
    destruct (parameterInterface_names _ _ _ _ Hd Hf) as (other & Hother & ->).
    by apply Hquery.
Qed.

(** *** [duplicate] and [parser] *)

Lemma duplicateFrom_names interfaces :
  ∀ seen,
    NoDup (names (duplicateFrom seen interfaces))
    ∧ ∀ n, n ∈ names (duplicateFrom seen interfaces) → n ∉ seen.
Proof.
  induction interfaces as [|d rest IH]; intros seen; simpl.
  - split; [constructor|]. intros n Hn. inversion Hn.
  - case_bool_decide as Hseen; [apply IH|].
    destruct (IH (i_name d :: seen)) as [Hnd Hfresh].
    unfold names in *. rewrite fmap_cons. split.
    + apply NoDup_cons. split; [|done].
      intros Hin. apply (Hfresh _ Hin), list_elem_of_here.
    + intros n. rewrite elem_of_cons. intros [->|Hn]; [done|].
      intros Hin. apply (Hfresh n Hn). by apply list_elem_of_further.
Qed.

Lemma duplicateFrom_firstNamed interfaces :
  ∀ seen name,
    name ∉ seen →
    firstNamed name (duplicateFrom seen interfaces) = firstNamed name interfaces.
Proof.
  induction interfaces as [|d rest IH]; intros seen name Hname; simpl; [done|].
  destruct (String.eqb (i_name d) name) eqn:Heq.
  - apply String.eqb_eq in Heq. rewrite bool_decide_eq_false_2 by congruence.
    simpl. by rewrite (proj2 (String.eqb_eq _ _) Heq).
  - apply String.eqb_neq in Heq. case_bool_decide as Hseen.
    + by apply IH.
    + simpl. rewrite (proj2 (String.eqb_neq _ _) Heq). apply IH.
      rewrite not_elem_of_cons. split; [congruence|done].
Qed.

Lemma resolveSchema_enough fuel schema definitions defaultName :
  enoughFuel matchRefTypeName definitions ≤ fuel →
  is_Some (resolveSchema matchRefTypeName fuel schema definitions defaultName).
Proof.
  intros Hfuel. unfold resolveSchema.
  destruct (bool_decide (s_type schema = Some "array")).
  - destruct (Js.truthy (s_items schema ≫= s_ref)); [|done].
    destruct (resolveInterface_enough fuel (default "" (s_items schema ≫= s_ref))
                definitions [] true Hfuel) as [c' ->].
    done.
  - destruct (Js.truthy (s_ref schema)).
    + destruct (resolveInterface_enough fuel (default "" (s_ref schema))
                  definitions [] true Hfuel) as [c' ->].
      done.
    + destruct (resolveProperties_enough fuel defaultName (Some schema)
                  definitions [] true Hfuel) as [c' ->].
      done.
Qed.

(** *** The lookup of the operation *)

Lemma definitionAt_operation swaggerJSON path method definition :
  definitionAt objectStatics (paths swaggerJSON) path method = Js.Normal (Operation definition)
  ↔ operationAt swaggerJSON path method = Some definition.
Proof.
  unfold definitionAt, operationAt.
  destruct (paths swaggerJSON !! path) as [operations|]; simpl.
  - destruct (operations !! method) as [d|].
    + split; by intros [= ->].
    + by destruct (Js.objectPrototypeMember method).
  - destruct (Js.objectPrototypeMember path) as [builtin|]; [|done].
    by destruct (Js.builtinMember objectStatics builtin method) as [[|]|].
Qed.

Lemma objectPrototypeMember_is_Some key :
  is_Some (Js.objectPrototypeMember key) ↔ key ∈ Js.objectPrototypeKeys.
Proof.
  unfold Js.objectPrototypeMember, Js.objectPrototypeKeys.
  destruct (String.eqb key "constructor") eqn:H1.
  { apply String.eqb_eq in H1 as ->. split; [intros _|by eexists].
    apply list_elem_of_here. }
  destruct (String.eqb key "__proto__") eqn:H2.
  { apply String.eqb_eq in H2 as ->. split; [intros _|by eexists].
    apply list_elem_of_further, list_elem_of_here. }
  apply String.eqb_neq in H1, H2.
  repeat case_bool_decide;
    (split; [intros Hsome|intros Hin]);
    repeat match goal with
           | H : _ ∈ _ :: _ |- _ => apply elem_of_cons in H as [->|H]
           | H : _ ∈ [] |- _ => inversion H
           | H : ¬ _ ∈ _ :: _ |- _ => apply not_elem_of_cons in H as [? H]
           end;
    try done; try (by eexists); try (by destruct Hsome);
    repeat first [apply list_elem_of_here | apply list_elem_of_further].
Qed.

(** C2, for [duplicate] as the specification describes it.  When
    [parser] returns a result, its [interfaces] have pairwise distinct
    names, and the interface they hold under a name is the first one of that
    name in the collectors of the path variables, the query, the body and
    the response, taken in this order. *)
Theorem parser_interfaces fuel swaggerJSON path method result :
  parser matchRefTypeName toFirstUpperCase objectStatics fuel swaggerJSON path method
  = Some (Js.Normal (Some result)) →
  NoDup (names (r_interfaces result))
  ∧ ∃ definition pathVarTypes queryTypes bodyTypes resTypes,
      operationAt swaggerJSON path method = Some definition
      ∧ resolvePath matchRefTypeName toFirstUpperCase fuel (pathVariables path) definition
          (schemas swaggerJSON) = Some pathVarTypes
      ∧ resolveQuery matchRefTypeName toFirstUpperCase fuel (pathVariables path) definition
          (schemas swaggerJSON) = Some queryTypes
      ∧ resolveSchema matchRefTypeName fuel (firstSchema (requestBody definition))
          (schemas swaggerJSON) "RequestBody" = Some (bodyTypes, r_body result)
      ∧ resolveSchema matchRefTypeName fuel (firstSchema (responses definition !! "200"))
          (schemas swaggerJSON) "ResponseBody" = Some (resTypes, r_res result)
      ∧ r_interfaces result = duplicate (pathVarTypes ++ queryTypes ++ bodyTypes ++ resTypes)
      ∧ ∀ name,
          firstNamed name (r_interfaces result)
          = firstNamed name (pathVarTypes ++ queryTypes ++ bodyTypes ++ resTypes).
Proof.
  unfold parser.
  destruct (definitionAt objectStatics (paths swaggerJSON) path method)
    as [[definition| |]|] eqn:Hat; try done.
  apply definitionAt_operation in Hat.
  cbv zeta.
  destruct (resolvePath _ _ _ _ _ _) as [pathVarTypes|] eqn:Hpath; [|done]. simpl.
  destruct (resolveQuery _ _ _ _ _ _) as [queryTypes|] eqn:Hquery; [|done]. simpl.
  destruct (resolveSchema _ _ (firstSchema (requestBody definition)) _ _)
    as [[bodyTypes body]|] eqn:Hbody; [|done]. simpl.
  destruct (resolveSchema _ _ (firstSchema (responses definition !! "200")) _ _)
    as [[resTypes res]|] eqn:Hres; [|done]. simpl.
  intros [= <-]. simpl. split.
  - apply duplicateFrom_names.
  - exists definition, pathVarTypes, queryTypes, bodyTypes, resTypes.
    split; [exact Hat|]. split; [exact Hpath|]. split; [exact Hquery|].
    split; [exact Hbody|]. split; [exact Hres|]. split; [done|].
    intros name. apply duplicateFrom_firstNamed. inversion 1.
Qed.

(** C7, as the code has it.  [parser] looks the operation up under the
    path and the method as they are given, without any conversion of
    case.  When the document has an operation there, it returns a result
    named after its [operationId].  When it has none, the lookup still
    sees what the objects of the document inherit.  Under a path of the
    document, a method that is no name of a property of
    [Object.prototype] makes it return without a value, and one that is
    such a name, [constructor] for one, makes it throw.  Under a path that
    the document does not have and that is no such name, it returns
    without a value. *)
Theorem parser_operation fuel swaggerJSON path method :
  enoughFuel matchRefTypeName (schemas swaggerJSON) ≤ fuel →
  match operationAt swaggerJSON path method with
  | None =>
      match paths swaggerJSON !! path with
      | Some _ =>
          if bool_decide (method ∈ Js.objectPrototypeKeys)
          then parser matchRefTypeName toFirstUpperCase objectStatics fuel swaggerJSON
                 path method
               = Some Js.TypeError
          else parser matchRefTypeName toFirstUpperCase objectStatics fuel swaggerJSON
                 path method
               = Some (Js.Normal None)
      | None =>
          path ∉ Js.objectPrototypeKeys →
          parser matchRefTypeName toFirstUpperCase objectStatics fuel swaggerJSON path method
          = Some (Js.Normal None)
      end
  | Some definition =>
      ∃ result,
        parser matchRefTypeName toFirstUpperCase objectStatics fuel swaggerJSON path method
        = Some (Js.Normal (Some result))
        ∧ r_name result = parseOperationId (operationId definition)
  end.
Proof.
  intros Hfuel. unfold parser.
  destruct (operationAt swaggerJSON path method) as [definition|] eqn:Hop; cycle 1.
  { unfold definitionAt. unfold operationAt in Hop.
    destruct (paths swaggerJSON !! path) as [operations|]; simpl in Hop.
    - rewrite Hop. case_bool_decide as Hmethod.
      + by apply objectPrototypeMember_is_Some in Hmethod as [builtin ->].
      + destruct (Js.objectPrototypeMember method) as [builtin|] eqn:Hmember; [|done].
        destruct Hmethod. apply objectPrototypeMember_is_Some. by exists builtin.
    - intros Hpath.
      destruct (Js.objectPrototypeMember path) as [builtin|] eqn:Hmember; [|done].
      destruct Hpath. apply objectPrototypeMember_is_Some. by exists builtin. }
  rewrite (proj2 (definitionAt_operation _ _ _ _) Hop).
  unfold resolvePath, resolveQuery.
  destruct (resolveParameters_spec fuel
              (toFirstUpperCase (parseOperationId (operationId definition)) +:+ "PathVar")
              (pathParameters (pathVariables path) definition) (schemas swaggerJSON) Hfuel)
    as (pre1 & refs1 & ->).
  destruct (resolveParameters_spec fuel
              (toFirstUpperCase (parseOperationId (operationId definition)) +:+ "Query")
              (queryParameters (pathVariables path) definition) (schemas swaggerJSON) Hfuel)
    as (pre2 & refs2 & ->).
  simpl.
  destruct (resolveSchema_enough fuel (firstSchema (requestBody definition))
              (schemas swaggerJSON) "RequestBody" Hfuel) as [[bodyTypes body] ->].
  destruct (resolveSchema_enough fuel (firstSchema (responses definition !! "200"))
              (schemas swaggerJSON) "ResponseBody" Hfuel) as [[resTypes res] ->].
  simpl. by eexists.
Qed.

(** *** Further properties of the fields *)

Lemma tsKeywordOf_not_empty schema :
  Js.truthy (tsKeywordOf schema) = true → default "" (tsKeywordOf schema) ≠ "".
Proof.
  intros Htruthy. apply truthy_inv in Htruthy as (k & -> & Hk). done.
Qed.

Lemma propertyFields_type_not_empty properties required markRequired f :
  f ∈ propertyFields properties required markRequired → f_type f ≠ "".
Proof.
  unfold propertyFields. rewrite list_elem_of_omap. intros (propName & _ & Hf).
  destruct (Js.truthy (tsKeywordOf _)) eqn:Htruthy; [|done].
  injection Hf as <-. simpl. by apply tsKeywordOf_not_empty.
Qed.

Lemma parameterField_type_not_empty parameter f :
  parameterField parameter = Some f → f_type f ≠ "".
Proof.
  unfold parameterField. destruct (Js.truthy (tsKeywordOf _)) eqn:Htruthy; [|done].
  intros [= <-]. simpl. by apply tsKeywordOf_not_empty.
Qed.

Lemma replaceRef_not_empty s c rest :
  c ≠ "$"%char → Js.replaceRef s (String c rest +:+ "$1") ≠ "".
Proof.
  intros Hc. unfold Js.replaceRef. destruct (Js.splitLastLine s) as [before line].
  change (String c rest +:+ "$1") with (String c (rest +:+ "$1")).
  simpl. rewrite (proj2 (Ascii.eqb_neq c "$") Hc). simpl. by destruct before.
Qed.

Lemma rewriteField_type_not_empty interfaceBody f :
  (∀ item, item ∈ interfaceBody → f_type item ≠ "") →
  properNames matchRefTypeName interfaceBody →
  f ∈ rewriteField matchRefTypeName <$> interfaceBody →
  f_type f ≠ "".
Proof.
  intros Hbuilt Hnames. rewrite list_elem_of_fmap. intros (item & -> & Hitem).
  unfold rewriteField. destruct (Js.startsWith (f_type item) definitionPrefix) eqn:Hstarts.
  - destruct (Hnames item Hitem Hstarts) as (c & rest & -> & Hc). simpl.
    by apply replaceRef_not_empty.
  - by apply Hbuilt.
Qed.

(** X1. With enough fuel, in the interface that [resolveProperties]
    registers for a definition and in the one that [resolveParameters]
    registers for the parameters, no field has the empty text as its type
    once the pass of [transformInterfaceBody] is over, provided that
    [matchRefTypeName] gives, for every type that the pass rewrites, a name
    that begins with a character other than [$].  Without the proviso the
    rewriting can leave the empty text. *)
Theorem field_type_not_empty fuel definitions :
  enoughFuel matchRefTypeName definitions ≤ fuel →
  (∀ name definition properties c markRequired,
     s_properties definition = Some properties →
     properNames matchRefTypeName
       (propertyFields properties (default [] (s_required definition)) markRequired) →
     ∃ pre fields,
       resolveProperties matchRefTypeName fuel name (Some definition) definitions c markRequired
       = Some (pre ++ mkInterface name (s_description definition) fields :: c)
       ∧ ∀ f, f ∈ fields → f_type f ≠ "")
  ∧ (∀ interfaceName parameters,
       properNames matchRefTypeName (omap parameterField parameters) →
       ∃ pre refs,
         resolveParameters matchRefTypeName fuel interfaceName parameters definitions
         = Some (pre ++ parameterInterface matchRefTypeName interfaceName parameters ++ refs)
         ∧ ∀ d f,
             d ∈ parameterInterface matchRefTypeName interfaceName parameters →
             f ∈ i_fields d → f_type f ≠ "").
Proof.
  intros Hfuel. split.
  - intros name definition properties c markRequired Hprops Hnames.
    destruct (resolveProperties_enough fuel name (Some definition) definitions c markRequired
                Hfuel) as [c' Hrun].
    destruct (resolveProperties_registers _ _ _ _ _ _ _ _ Hprops Hrun) as (pre & -> & _).
    eexists pre, _. split; [exact Hrun|].
    intros f. apply rewriteField_type_not_empty; [|done].
    intros item. apply propertyFields_type_not_empty.
  - intros interfaceName parameters Hnames.
    destruct (resolveParameters_spec fuel interfaceName parameters definitions Hfuel)
      as (pre & refs & Hrun).
    exists pre, refs. split; [exact Hrun|].
    intros d f. unfold parameterInterface.
    destruct (omap parameterField parameters) as [|item0 body] eqn:Hbody; [by inversion 1|].
    intros Hd. apply list_elem_of_singleton in Hd as ->.
    change (i_fields (mkInterface interfaceName None
                        (rewriteField matchRefTypeName <$> item0 :: body)))
      with (rewriteField matchRefTypeName <$> item0 :: body).
    apply rewriteField_type_not_empty; [|done].
    intros item. rewrite <- Hbody, list_elem_of_omap.
    intros (parameter & _ & Hfield). by eapply parameterField_type_not_empty.
Qed.

Lemma property_other properties1 k v properties2 key :
  key ≠ k →
  property (properties1 ++ (k, v) :: properties2) key
  = property (properties1 ++ properties2) key.
Proof.
  intros Hkey. unfold property. f_equal. f_equal.
  induction properties1 as [|[k1 v1] rest IH]; simpl.
  - by rewrite (proj2 (String.eqb_neq k key)).
  - by destruct (String.eqb k1 key).
Qed.

Lemma property_here properties1 k v properties2 :
  k ∉ (fst <$> properties1) →
  property (properties1 ++ (k, v) :: properties2) k = v.
Proof.
  unfold property. induction properties1 as [|[k1 v1] rest IH]; simpl.
  - intros _. by rewrite String.eqb_refl.
  - rewrite not_elem_of_cons. intros [Hk Hrest].
    rewrite (proj2 (String.eqb_neq k1 k)) by done. by apply IH.
Qed.

Lemma omap_agree {A B} (f g : A → option B) (l : list A) :
  (∀ x, x ∈ l → f x = g x) → omap f l = omap g l.
Proof.
  induction l as [|x l IH]; intros Hfg; [done|].
  change (omap f (x :: l)) with (match f x with Some y => y :: omap f l | None => omap f l end).
  change (omap g (x :: l)) with (match g x with Some y => y :: omap g l | None => omap g l end).
  rewrite (Hfg x) by apply list_elem_of_here.
  rewrite IH; [done|]. intros y Hy. apply Hfg. by apply list_elem_of_further.
Qed.

(** X2. A property without type expression gives no field and leaves the
    fields of the other properties as they are: the fields are those of
    the properties without it. *)
Theorem propertyFields_omits properties1 k schema properties2 required markRequired :
  Js.truthy (tsKeywordOf (default emptySchema schema)) = false →
  k ∉ (fst <$> properties1 ++ properties2) →
  propertyFields (properties1 ++ (k, schema) :: properties2) required markRequired
  = propertyFields (properties1 ++ properties2) required markRequired.
Proof.
  intros Hnone Hk. unfold propertyFields.
  rewrite !fmap_app, fmap_cons, !omap_app. simpl.
  rewrite fmap_app, not_elem_of_app in Hk. destruct Hk as [Hk1 Hk2].
  rewrite property_here by done. rewrite Hnone. simpl.
  f_equal; apply omap_agree; intros key Hkey;
    rewrite property_other; congruence.
Qed.

Lemma transformInterfaceBodyFrom_no_reference rec idx owner items definitions c markRequired :
  bodyRefs items = [] →
  transformInterfaceBodyFrom matchRefTypeName rec idx owner items definitions c markRequired
  = Some c.
Proof.
  revert idx. induction items as [|item rest IH]; intros idx Hrefs; [done|].
  simpl. unfold bodyRefs in Hrefs. simpl in Hrefs.
  destruct (Js.startsWith (f_type item) definitionPrefix); [done|]. by apply IH.
Qed.

(** X3. When no field of a definition has a type expression that begins
    with the prefix of the definitions, [resolveProperties] puts exactly
    one interface in front of the collector, with the fields as they were
    built, whatever the fuel: nothing is resolved and nothing else is
    touched. *)
Theorem resolveProperties_without_reference
    fuel name definition properties definitions c markRequired :
  s_properties definition = Some properties →
  bodyRefs (propertyFields properties (default [] (s_required definition)) markRequired) = [] →
  resolveProperties matchRefTypeName fuel name (Some definition) definitions c markRequired
  = Some (mkInterface name (s_description definition)
            (propertyFields properties (default [] (s_required definition)) markRequired)
          :: c).
Proof.
  intros Hprops Hrefs. unfold resolveProperties, resolvePropertiesWith. simpl.
  rewrite Hprops. by apply transformInterfaceBodyFrom_no_reference.
Qed.

(** X4. [resolveProperties] registers an interface also when no property
    gives a field, be it that [properties] is empty or that no property
    has a type expression: the interface then has no fields. *)
Theorem resolveProperties_without_fields
    fuel name definition properties definitions c markRequired :
  s_properties definition = Some properties →
  (∀ propName, propName ∈ (fst <$> properties) →
     Js.truthy (tsKeywordOf (default emptySchema (property properties propName))) = false) →
  resolveProperties matchRefTypeName fuel name (Some definition) definitions c markRequired
  = Some (mkInterface name (s_description definition) [] :: c).
Proof.
  intros Hprops Hnone. unfold resolveProperties, resolvePropertiesWith. simpl.
  rewrite Hprops.
  assert (propertyFields properties (default [] (s_required definition)) markRequired = [])
    as ->; [|done].
  unfold propertyFields. generalize (fst <$> properties) Hnone. intros keys Hkeys.
  induction keys as [|propName keys IH]; [done|]. simpl.
  rewrite (Hkeys propName) by apply list_elem_of_here. simpl.
  apply IH. intros key Hkey. apply Hkeys. by apply list_elem_of_further.
Qed.

(** *** Further properties of [resolveParameters] *)

Lemma last_grows c c' top : grows c c' → last c = Some top → last c' = Some top.
Proof. intros (pre & -> & _) Hlast. by rewrite last_app, Hlast. Qed.

(** Where the loop of [resolveParameters] leaves the collector that it
    started empty. *)
Lemma parameterFields_last fuel parameters :
  ∀ definitions interfaceBody c' interfaceBody',
    enoughFuel matchRefTypeName definitions ≤ fuel →
    parameterFields matchRefTypeName fuel parameters definitions [] interfaceBody
    = Some (c', interfaceBody') →
    match firstResolvedRef definitions parameters with
    | Some ref =>
        ∃ top, last c' = Some top ∧ i_name top = matchRefTypeName definitionPrefix ref
    | None => c' = []
    end.
Proof.
  induction parameters as [|parameter rest IH];
    intros definitions body c' body' Hfuel Hrun.
  - simpl in Hrun. by injection Hrun as <- _.
  - simpl in Hrun. simpl firstResolvedRef.
    set (ref := s_ref (default emptySchema (p_schema parameter))) in *.
    destruct (Js.truthy ref) eqn:Htruthy; simpl.
    + apply truthy_inv in Htruthy as (r & Href & Hr). rewrite Href in *. simpl in *.
      pose proof (resolveInterface_top fuel r definitions true Hfuel Hr) as Htop.
      destruct (s_properties (referenced definitions r)) as [properties|] eqn:Hprops.
      * rewrite bool_decide_eq_true_2 by eauto.
        destruct Htop as (pre & fields & Htop). rewrite Htop in Hrun. simpl in Hrun.
        exists (mkInterface (matchRefTypeName definitionPrefix r)
                  (s_description (referenced definitions r)) fields).
        split; [|reflexivity].
        assert (∃ body0, parameterFields matchRefTypeName fuel rest definitions
                           (pre ++ [mkInterface (matchRefTypeName definitionPrefix r)
                                      (s_description (referenced definitions r)) fields])
                           body0 = Some (c', body')) as [body0 Hrest]
          by (destruct (negb _); eauto).
        destruct (parameterFields_spec fuel rest definitions
                    (pre ++ [mkInterface (matchRefTypeName definitionPrefix r)
                               (s_description (referenced definitions r)) fields])
                    body0 Hfuel)
          as (c'' & Hspec & Hgrows).
        rewrite Hspec in Hrest. injection Hrest as <- _.
        eapply last_grows; [exact Hgrows|]. apply last_snoc.
      * rewrite bool_decide_eq_false_2 by (by intros [? ?]).
        rewrite Htop in Hrun. simpl in Hrun.
        destruct (negb _); by eapply IH.
    + destruct (negb _); by eapply IH.
Qed.

Lemma resolveParameters_parts fuel interfaceName parameters definitions :
  enoughFuel matchRefTypeName definitions ≤ fuel →
  ∃ pre refs,
    parameterFields matchRefTypeName fuel parameters definitions [] []
    = Some (refs, omap parameterField parameters)
    ∧ resolveParameters matchRefTypeName fuel interfaceName parameters definitions
      = Some (pre ++ parameterInterface matchRefTypeName interfaceName parameters ++ refs)
    ∧ (omap parameterField parameters = [] → pre = []).
Proof.
  intros Hfuel. unfold resolveParameters, parameterInterface.
  destruct (parameterFields_spec fuel parameters definitions [] [] Hfuel)
    as (refs & Hloop & _).
  rewrite Hloop. simpl. destruct (omap parameterField parameters) as [|item body] eqn:Hbody.
  - simpl. by exists [], refs.
  - rewrite bool_decide_eq_true_2 by done.
    unfold transformInterfaceBody.
    destruct (transformInterfaceBodyFrom_is_Some
                (resolveInterface matchRefTypeName fuel) (fun _ => True)
                (resolveInterface_grows fuel) ltac:(done) ltac:(done)
                definitions (item :: body)
                ltac:(intros; by apply resolveInterface_enough)
                0 (length refs) (mkInterface interfaceName None (item :: body) :: refs) true I)
      as [c' Hc'].
    rewrite Hc'.
    apply (transformInterfaceBodyFrom_spec _ (resolveInterface_registers fuel) _ [] [] _ _ refs)
      in Hc' as (pre & -> & _).
    by exists pre, refs.
Qed.

Lemma resolveParameters_lastName fuel interfaceName parameters definitions :
  enoughFuel matchRefTypeName definitions ≤ fuel →
  ∃ c,
    resolveParameters matchRefTypeName fuel interfaceName parameters definitions = Some c
    ∧ lastName c = parametersName matchRefTypeName definitions interfaceName parameters.
Proof.
  intros Hfuel.
  destruct (resolveParameters_parts fuel interfaceName parameters definitions Hfuel)
    as (pre & refs & Hloop & Hrun & Hpre).
  eexists. split; [exact Hrun|].
  pose proof (parameterFields_last fuel parameters definitions [] refs _ Hfuel Hloop) as Hlast.
  unfold parametersName, lastName.
  destruct (firstResolvedRef definitions parameters) as [ref|].
  - destruct Hlast as (top & Hlast & Hname).
    rewrite !last_app, Hlast. simpl. by rewrite Hname.
  - subst refs. rewrite app_nil_r. unfold parameterInterface.
    destruct (omap parameterField parameters) as [|item body].
    + by rewrite Hpre.
    + by rewrite last_snoc.
Qed.

Lemma parameterField_without_ref parameter :
  parameterField parameter = None →
  Js.truthy (s_ref (default emptySchema (p_schema parameter))) = false.
Proof.
  unfold parameterField, tsKeywordOf.
  destruct (Js.truthy (s_ref _)) eqn:Href; [|done].
  by rewrite Href.
Qed.

Lemma parameterFields_without_ref fuel parameters :
  ∀ definitions c interfaceBody,
    (∀ parameter, parameter ∈ parameters →
       Js.truthy (s_ref (default emptySchema (p_schema parameter))) = false) →
    parameterFields matchRefTypeName fuel parameters definitions c interfaceBody
    = Some (c, interfaceBody ++ omap parameterField parameters).
Proof.
  induction parameters as [|parameter rest IH]; intros definitions c body Hrefs.
  - simpl. by rewrite app_nil_r.
  - simpl. rewrite (Hrefs parameter) by apply list_elem_of_here. simpl.
    unfold parameterField at 1.
    destruct (negb (Js.truthy (tsKeywordOf _))).
    + apply IH. intros p Hp. apply Hrefs. by apply list_elem_of_further.
    + rewrite IH; [by rewrite <- app_assoc|].
      intros p Hp. apply Hrefs. by apply list_elem_of_further.
Qed.

(** X5. [resolveParameters] returns the empty collector exactly when no
    parameter has a type expression; as soon as one has, the collector
    holds an interface. *)
Theorem resolveParameters_empty fuel interfaceName parameters definitions :
  enoughFuel matchRefTypeName definitions ≤ fuel →
  resolveParameters matchRefTypeName fuel interfaceName parameters definitions = Some []
  ↔ omap parameterField parameters = [].
Proof.
  intros Hfuel.
  destruct (resolveParameters_parts fuel interfaceName parameters definitions Hfuel)
    as (pre & refs & Hloop & Hrun & Hpre).
  rewrite Hrun. unfold parameterInterface in *. split.
  - destruct (omap parameterField parameters) as [|item body]; [done|].
    intros [= Hnil]. by destruct pre.
  - intros Hnone. rewrite Hnone in *. rewrite (Hpre eq_refl). simpl.
    rewrite parameterFields_without_ref in Hloop.
    + by injection Hloop as <- _.
    + intros parameter Hin. apply parameterField_without_ref.
      destruct (parameterField parameter) as [f|] eqn:Hf; [|done].
      assert (f ∈ omap parameterField parameters) as Hbad
        by (apply list_elem_of_omap; eauto).
      rewrite Hnone in Hbad. inversion Hbad.
Qed.

(** X6. When no parameter carries a [$ref] and no type expression begins
    with the prefix of the definitions, [resolveParameters] returns, for
    every fuel and every table, just the interface of the parameters, with
    the fields as they were built, or the empty collector when there is no
    field. *)
Theorem resolveParameters_without_reference fuel interfaceName parameters definitions :
  (∀ parameter, parameter ∈ parameters →
     Js.truthy (s_ref (default emptySchema (p_schema parameter))) = false) →
  bodyRefs (omap parameterField parameters) = [] →
  resolveParameters matchRefTypeName fuel interfaceName parameters definitions
  = Some (match omap parameterField parameters with
          | [] => []
          | interfaceBody => [mkInterface interfaceName None interfaceBody]
          end).
Proof.
  intros Hrefs Hbody. unfold resolveParameters.
  rewrite parameterFields_without_ref by done. simpl.
  unfold transformInterfaceBody.
  rewrite transformInterfaceBodyFrom_no_reference by done.
  by destruct (omap parameterField parameters).
Qed.

(** X7. The names [pathVar] and [query] of a result are read at the end
    of the collectors of [resolvePath] and [resolveQuery]: each is the name
    of the definition of the first [$ref] among the kept parameters that
    names a definition with properties, if there is one; otherwise the name
    of the interface of the parameters, if a parameter has a type
    expression; otherwise it is absent. *)
Theorem parser_parameter_names fuel swaggerJSON path method definition :
  enoughFuel matchRefTypeName (schemas swaggerJSON) ≤ fuel →
  operationAt swaggerJSON path method = Some definition →
  ∃ result,
    parser matchRefTypeName toFirstUpperCase objectStatics fuel swaggerJSON path method
    = Some (Js.Normal (Some result))
    ∧ r_pathVar result
      = parametersName matchRefTypeName (schemas swaggerJSON)
          (toFirstUpperCase (parseOperationId (operationId definition)) +:+ "PathVar")
          (pathParameters (pathVariables path) definition)
    ∧ r_query result
      = parametersName matchRefTypeName (schemas swaggerJSON)
          (toFirstUpperCase (parseOperationId (operationId definition)) +:+ "Query")
          (queryParameters (pathVariables path) definition).
Proof.
  intros Hfuel Hop. unfold parser.
  rewrite (proj2 (definitionAt_operation _ _ _ _) Hop). unfold resolvePath, resolveQuery.
  destruct (resolveParameters_lastName fuel
              (toFirstUpperCase (parseOperationId (operationId definition)) +:+ "PathVar")
              (pathParameters (pathVariables path) definition) (schemas swaggerJSON) Hfuel)
    as (c1 & -> & Hname1).
  destruct (resolveParameters_lastName fuel
              (toFirstUpperCase (parseOperationId (operationId definition)) +:+ "Query")
              (queryParameters (pathVariables path) definition) (schemas swaggerJSON) Hfuel)
    as (c2 & -> & Hname2).
  simpl.
  destruct (resolveSchema_enough fuel (firstSchema (requestBody definition))
              (schemas swaggerJSON) "RequestBody" Hfuel) as [[bodyTypes body] ->].
  destruct (resolveSchema_enough fuel (firstSchema (responses definition !! "200"))
              (schemas swaggerJSON) "ResponseBody" Hfuel) as [[resTypes res] ->].
  simpl. eexists. split; [done|]. simpl. by rewrite Hname1, Hname2.
Qed.

(** *** Further properties of [resolveSchema] *)

(** X8. A schema that is not an array, has no [$ref] and no
    [properties], such as the empty schema of an absent body or a schema of
    a primitive type, gives neither an interface nor a name, whatever the
    fuel and the table. *)
Theorem resolveSchema_without_properties fuel schema definitions defaultName :
  s_type schema ≠ Some "array" →
  Js.truthy (s_ref schema) = false →
  s_properties schema = None →
  resolveSchema matchRefTypeName fuel schema definitions defaultName = Some ([], None).
Proof.
  intros Htype Href Hprops. unfold resolveSchema.
  rewrite bool_decide_eq_false_2 by done. rewrite Href.
  unfold resolveProperties, resolvePropertiesWith. simpl. by rewrite Hprops.
Qed.

Lemma resolveSchema_collector fuel schema definitions defaultName c name :
  resolveSchema matchRefTypeName fuel schema definitions defaultName = Some (c, name) →
  registers matchRefTypeName definitions true [] c
  ∨ ∃ pre properties,
      s_properties schema = Some properties
      ∧ c = pre ++ [mkInterface defaultName (s_description schema)
                      (rewriteField matchRefTypeName <$>
                         propertyFields properties (default [] (s_required schema)) true)]
      ∧ NoDup (names pre)
      ∧ (∀ n, n ∈ names pre → n ≠ defaultName)
      ∧ Forall (builtFrom matchRefTypeName definitions true) pre.
Proof.
  assert (registers matchRefTypeName definitions true [] []) as Hrefl.
  { exists []. split; [done|]. split; [constructor|]. split; [|constructor].
    intros n Hn. inversion Hn. }
  unfold resolveSchema. destruct (bool_decide (s_type schema = Some "array")).
  - destruct (Js.truthy (s_items schema ≫= s_ref)); [|intros [= <- _]; by left].
    destruct (resolveInterface _ _ _ _ _ _) as [c'|] eqn:Hrun; [|done].
    intros [= <- _]. left. by eapply resolveInterface_registers.
  - destruct (Js.truthy (s_ref schema)).
    + destruct (resolveInterface _ _ _ _ _ _) as [c'|] eqn:Hrun; [|done].
      intros [= <- _]. left. by eapply resolveInterface_registers.
    + destruct (resolveProperties _ _ _ _ _ _ _) as [c'|] eqn:Hrun; [|done].
      intros [= <- _].
      apply resolvePropertiesWith_spec in Hrun; [|apply resolveInterface_registers].
      simpl in Hrun. destruct (s_properties schema) as [properties|]; [|subst; by left].
      destruct Hrun as (pre & -> & Hnd & Hfresh & Hbuilt).
      right. exists pre, properties. split; [done|]. split; [done|]. split; [done|].
      split; [|done]. intros n Hn. by destruct (Hfresh n Hn).
Qed.

(** X9. The collector that [resolveSchema] returns never holds two
    interfaces of the same name. *)
Theorem resolveSchema_NoDup fuel schema definitions defaultName c name :
  resolveSchema matchRefTypeName fuel schema definitions defaultName = Some (c, name) →
  NoDup (names c).
Proof.
  intros Hrun. destruct (resolveSchema_collector _ _ _ _ _ _ Hrun) as
    [(pre & -> & Hnd & _)|(pre & properties & _ & -> & Hnd & Hfresh & _)].
  - by rewrite app_nil_r.
  - unfold names in *. rewrite fmap_app. apply NoDup_app. split; [done|].
    split; [|apply NoDup_singleton].
    intros n Hn. simpl. rewrite list_elem_of_singleton. by apply Hfresh.
Qed.

(** X10. [resolveSchema] resolves with [markRequired] set: in every
    interface of its collector a field is non-optional exactly when its
    name is in the [required] list of the definition that the interface was
    built from, which is the definition of a reference, or the schema
    itself for the interface under the default name. *)
Theorem resolveSchema_optional fuel schema definitions defaultName c name d :
  resolveSchema matchRefTypeName fuel schema definitions defaultName = Some (c, name) →
  d ∈ c →
  ∃ required,
    ((∃ ref,
        i_name d = matchRefTypeName definitionPrefix ref
        ∧ required = default [] (s_required (referenced definitions ref)))
     ∨ (i_name d = defaultName ∧ required = default [] (s_required schema)))
    ∧ ∀ f, f ∈ i_fields d → (f_optional f = false ↔ f_name f ∈ required).
Proof.
  intros Hrun Hd.
  assert (∀ d, builtFrom matchRefTypeName definitions true d →
               ∃ required,
                 ((∃ ref,
                     i_name d = matchRefTypeName definitionPrefix ref
                     ∧ required = default [] (s_required (referenced definitions ref)))
                  ∨ (i_name d = defaultName ∧ required = default [] (s_required schema)))
                 ∧ ∀ f, f ∈ i_fields d → (f_optional f = false ↔ f_name f ∈ required))
    as Hbuilt.
  { intros d' (ref & properties & _ & ->). eexists. split; [left; by exists ref|].
    intros f Hf. simpl in Hf. apply optional_law in Hf. rewrite Hf.
      split; [by intros [_ ?]|by intros ?; split]. }
  destruct (resolveSchema_collector _ _ _ _ _ _ Hrun) as
    [(pre & -> & _ & _ & Hall)|(pre & properties & _ & -> & _ & _ & Hall)].
  - rewrite app_nil_r in Hd. rewrite Forall_forall in Hall. by apply Hbuilt, Hall.
  - apply elem_of_app in Hd as [Hd|Hd].
    + rewrite Forall_forall in Hall. by apply Hbuilt, Hall.
    + apply list_elem_of_singleton in Hd as ->. eexists. split; [by right|].
      intros f Hf. simpl in Hf. apply optional_law in Hf. rewrite Hf.
      split; [by intros [_ ?]|by intros ?; split].
Qed.

(** *** Further properties of the filters *)

(** X11. No parameter is kept both for the path variables and for the
    query.  A parameter is kept for one of the two exactly when it is a
    parameter of the operation whose [in] is ['path'] or ['query'] or whose
    name is a variable of the path; so the parameters of a header or a
    cookie are left out, unless they bear the name of a variable. *)
Theorem parameter_filters pathVars definition parameter :
  ¬ (parameter ∈ pathParameters pathVars definition
     ∧ parameter ∈ queryParameters pathVars definition)
  ∧ (parameter ∈ pathParameters pathVars definition
     ∨ parameter ∈ queryParameters pathVars definition
     ↔ parameter ∈ default [] (parameters definition)
       ∧ (p_in parameter = "path" ∨ p_in parameter = "query"
          ∨ p_name parameter ∈ pathVars)).
Proof.
  rewrite pathParameters_spec, queryParameters_spec. split.
  - intros [(_ & [Hpath|Hname]) (_ & Hquery & Hnot)]; [congruence|done].
  - destruct (decide (p_name parameter ∈ pathVars)); tauto.
Qed.

(** *** Further properties of the strings *)

Lemma append_cons c s t : String c s +:+ t = String c (s +:+ t).
Proof. reflexivity. Qed.

Lemma append_assoc s t u : (s +:+ t) +:+ u = s +:+ t +:+ u.
Proof.
  induction s as [|c s IH]; [done|]. rewrite !append_cons. by rewrite IH.
Qed.

Lemma noLineTerminator_snoc text c :
  Js.noLineTerminator (text +:+ String c "")
  = Js.noLineTerminator text && negb (Js.isLineTerminator c).
Proof.
  induction text as [|d text IH].
  - simpl. by rewrite andb_true_r.
  - rewrite append_cons. simpl. rewrite IH. by rewrite andb_assoc.
Qed.

Lemma pathVariablesFrom_sound path :
  ∀ inside v,
    (∀ text, inside = Some text → Js.noLineTerminator text = true) →
    v ∈ pathVariablesFrom inside path →
    v ≠ "" ∧ Js.noLineTerminator v = true.
Proof.
  induction path as [|c path IH]; intros inside v Hinside; simpl; [by inversion 1|].
  destruct inside as [text|].
  - destruct (Js.isLineTerminator c) eqn:Hc; [by apply (IH None)|].
    destruct (Ascii.eqb c "}" && negb (String.eqb text "")) eqn:Hclose.
    + rewrite elem_of_cons. intros [->|Hv]; [|by apply (IH None)].
      apply andb_true_iff in Hclose as [_ Htext].
      apply negb_true_iff, String.eqb_neq in Htext. eauto.
    + apply IH. intros text' [= <-]. rewrite noLineTerminator_snoc, Hc.
      by rewrite (Hinside text).
  - destruct (Ascii.eqb c "{"); apply IH; by intros text [= <-].
Qed.

(** X12. Every variable that is read off a path is a text of at least
    one character and of one line. *)
Theorem pathVariables_not_empty path v :
  v ∈ pathVariables path → v ≠ "" ∧ Js.noLineTerminator v = true.
Proof. apply pathVariablesFrom_sound. done. Qed.

Lemma pathVariablesFrom_skip pre path :
  Js.lacks "{" pre = true →
  pathVariablesFrom None (pre +:+ path) = pathVariablesFrom None path.
Proof.
  induction pre as [|c pre IH]; [done|]. simpl. intros Hpre.
  apply andb_true_iff in Hpre as [Hc Hpre]. apply negb_true_iff in Hc.
  rewrite ?append_cons. simpl. rewrite Hc. by apply IH.
Qed.

Lemma pathVariablesFrom_close v :
  ∀ text path,
    Js.lacks "}" v = true →
    Js.noLineTerminator v = true →
    text +:+ v ≠ "" →
    pathVariablesFrom (Some text) (v +:+ String "}" path)
    = (text +:+ v) :: pathVariablesFrom None path.
Proof.
  induction v as [|c v IH]; intros text path Hbrace Hline Htext.
  - rewrite append_nil_r in *. change ("" +:+ String "}" path) with (String "}" path).
    simpl. by rewrite (proj2 (String.eqb_neq text "")).
  - simpl in Hbrace, Hline.
    apply andb_true_iff in Hbrace as [Hc Hbrace]. apply negb_true_iff in Hc.
    apply andb_true_iff in Hline as [Hlt Hline]. apply negb_true_iff in Hlt.
    rewrite ?append_cons. simpl. rewrite Hlt, Hc. simpl.
    rewrite IH; try done.
    + by rewrite append_assoc.
    + rewrite append_assoc. by destruct text.
Qed.

(** X13. A path is read piece by piece: after a text without opening
    brace, which has no variable of its own, a variable between a pair of
    braces is the first variable of the path, and the variables of what
    follows the closing brace come after it.  The variable has at least one
    character, is of one line and has no closing brace. *)
Theorem pathVariables_segment pre v rest :
  Js.lacks "{" pre = true →
  v ≠ "" →
  Js.lacks "}" v = true →
  Js.noLineTerminator v = true →
  pathVariables pre = []
  ∧ pathVariables (pre +:+ "{" +:+ v +:+ "}" +:+ rest) = v :: pathVariables rest.
Proof.
  intros Hpre Hv Hbrace Hline. unfold pathVariables. split.
  - rewrite <- (append_nil_r pre). by rewrite pathVariablesFrom_skip.
  - rewrite pathVariablesFrom_skip by done.
    change ("{" +:+ v +:+ "}" +:+ rest) with (String "{" (v +:+ String "}" rest)).
    change (pathVariablesFrom None (String "{" (v +:+ String "}" rest)))
      with (pathVariablesFrom (Some "") (v +:+ String "}" rest)).
    by rewrite pathVariablesFrom_close.
Qed.

(** *** Further properties of [parseOperationId] *)

Lemma prefix_sliceTo n : ∀ s, String.prefix (Js.sliceTo n s) s = true.
Proof.
  induction n as [|n IH]; intros [|c s]; simpl; try done.
  destruct (Ascii.ascii_dec c c); [apply IH|done].
Qed.

Lemma prefix_refl s : String.prefix s s = true.
Proof.
  induction s as [|c s IH]; simpl; [done|]. by destruct (Ascii.ascii_dec c c).
Qed.

Lemma prefix_of_sliceTo p : ∀ n s, String.prefix p (Js.sliceTo n s) = true → String.prefix p s = true.
Proof.
  induction p as [|a p IH]; intros n s; [by destruct s|].
  destruct n as [|n], s as [|c s]; simpl; try done.
  destruct (Ascii.ascii_dec a c); [apply IH|done].
Qed.

Lemma index_sliceTo p s :
  p ≠ "" →
  ∀ m, String.index 0 p s = Some m → String.index 0 p (Js.sliceTo m s) = None.
Proof.
  intros Hp. induction s as [|c s IH]; intros m.
  - destruct p; [done|]. simpl. done.
  - change (String.index 0 p (String c s))
      with (if String.prefix p (String c s) then Some 0
            else match String.index 0 p s with Some n => Some (S n) | None => None end).
    destruct (String.prefix p (String c s)) eqn:Hprefix.
    + intros [= <-]. simpl. by destruct p.
    + destruct (String.index 0 p s) as [n|] eqn:Hindex; [|done].
      intros [= <-].
      change (Js.sliceTo (S n) (String c s)) with (String c (Js.sliceTo n s)).
      change (String.index 0 p (String c (Js.sliceTo n s)))
        with (if String.prefix p (String c (Js.sliceTo n s)) then Some 0
              else match String.index 0 p (Js.sliceTo n s) with
                   | Some n => Some (S n) | None => None end).
      destruct (String.prefix p (String c (Js.sliceTo n s))) eqn:Hprefix'.
      * apply (prefix_of_sliceTo p (S n) (String c s)) in Hprefix'. congruence.
      * by rewrite IH.
Qed.

(** X14. The name that [parseOperationId] gives is a prefix of the
    operation identifier and has no [Using] left in it, so that a second
    application changes nothing. *)
Theorem parseOperationId_idempotent operationId :
  String.prefix (parseOperationId operationId) operationId = true
  ∧ Js.indexOf (parseOperationId operationId) "Using" = None
  ∧ parseOperationId (parseOperationId operationId) = parseOperationId operationId.
Proof.
  split.
  { unfold parseOperationId.
    destruct (Js.indexOf operationId "Using"); [apply prefix_sliceTo|apply prefix_refl]. }
  assert (Js.indexOf (parseOperationId operationId) "Using" = None) as Hnone.
  { unfold parseOperationId, Js.indexOf.
    destruct (String.index 0 "Using" operationId) as [m|] eqn:Hindex; [|done].
    by apply index_sliceTo. }
  split; [done|]. unfold parseOperationId at 1. by rewrite Hnone.
Qed.

Lemma sliceTo_length name rest : Js.sliceTo (String.length name) (name +:+ rest) = name.
Proof.
  induction name as [|c name IH]; [by destruct rest|].
  rewrite ?append_cons. simpl. by rewrite IH.
Qed.

Lemma prefix_cons a p c s :
  String.prefix (String a p) (String c s)
  = if Ascii.ascii_dec a c then String.prefix p s else false.
Proof. reflexivity. Qed.

Lemma prefix_Using name rest :
  String.prefix "Using" (name +:+ "Using" +:+ rest) = true →
  name = "" ∨ String.prefix "Using" name = true.
Proof.
  intros H. destruct name as [|c1 name]; [by left|right].
  rewrite ?append_cons, prefix_cons in H. rewrite prefix_cons.
  destruct (Ascii.ascii_dec "U" c1) as [<-|]; [|done].
  destruct name as [|c2 name]; [vm_compute in H; discriminate H|].
  rewrite ?append_cons, prefix_cons in H. rewrite prefix_cons.
  destruct (Ascii.ascii_dec "s" c2) as [<-|]; [|done].
  destruct name as [|c3 name]; [vm_compute in H; discriminate H|].
  rewrite ?append_cons, prefix_cons in H. rewrite prefix_cons.
  destruct (Ascii.ascii_dec "i" c3) as [<-|]; [|done].
  destruct name as [|c4 name]; [vm_compute in H; discriminate H|].
  rewrite ?append_cons, prefix_cons in H. rewrite prefix_cons.
  destruct (Ascii.ascii_dec "n" c4) as [<-|]; [|done].
  destruct name as [|c5 name]; [vm_compute in H; discriminate H|].
  rewrite ?append_cons, prefix_cons in H. rewrite prefix_cons.
  destruct (Ascii.ascii_dec "g" c5) as [<-|]; [|done].
  by destruct name.
Qed.

Lemma index_Using name rest :
  String.index 0 "Using" name = None →
  String.index 0 "Using" (name +:+ "Using" +:+ rest) = Some (String.length name).
Proof.
  induction name as [|c name IH]; [intros _; by destruct rest|].
  change (String.index 0 "Using" (String c name))
    with (if String.prefix "Using" (String c name) then Some 0
          else match String.index 0 "Using" name with Some n => Some (S n) | None => None end).
  change (String.index 0 "Using" (String c name +:+ "Using" +:+ rest))
    with (if String.prefix "Using" (String c name +:+ "Using" +:+ rest) then Some 0
          else match String.index 0 "Using" (name +:+ "Using" +:+ rest) with
               | Some n => Some (S n) | None => None end).
  destruct (String.prefix "Using" (String c name)) eqn:Hprefix; [done|].
  destruct (String.index 0 "Using" name) eqn:Hindex; [done|]. intros _.
  destruct (String.prefix "Using" (String c name +:+ "Using" +:+ rest)) eqn:Hprefix'.
  - apply prefix_Using in Hprefix' as [?|?]; [done|congruence].
  - by rewrite IH.
Qed.

(** X15. [parseOperationId] gives back the name in front of [Using]:
    an operation identifier made of a name without [Using] in it, the text
    [Using] and anything after it has that name, and an identifier without
    [Using] in it is its own name. *)
Theorem parseOperationId_name name rest :
  Js.indexOf name "Using" = None →
  parseOperationId (name +:+ "Using" +:+ rest) = name ∧ parseOperationId name = name.
Proof.
  intros Hname. unfold parseOperationId. rewrite Hname. split; [|done].
  unfold Js.indexOf in *. rewrite index_Using by done. apply sliceTo_length.
Qed.

(** *** An array of references *)






(** *** Further properties of [parser] *)

Lemma resolveSchema_emptySchema fuel definitions defaultName :
  resolveSchema matchRefTypeName fuel emptySchema definitions defaultName = Some ([], None).
Proof. reflexivity. Qed.

Lemma firstSchema_None body : firstEntry body = None → firstSchema body = emptySchema.
Proof. intros Hbody. unfold firstSchema. by rewrite Hbody. Qed.

(** X17. When the request body of the operation has no media type,
    because there is no request body, no [content] in it or an empty one,
    the result of [parser] has no [body] and is not form data; when the
    response [200] has none, the result has no [res]. *)
Theorem parser_without_content fuel swaggerJSON path method definition result :
  operationAt swaggerJSON path method = Some definition →
  parser matchRefTypeName toFirstUpperCase objectStatics fuel swaggerJSON path method
  = Some (Js.Normal (Some result)) →
  (firstEntry (requestBody definition) = None →
   r_body result = None ∧ r_isFormData result = false)
  ∧ (firstEntry (responses definition !! "200") = None → r_res result = None).
Proof.
  intros Hop. unfold parser. rewrite (proj2 (definitionAt_operation _ _ _ _) Hop).
  cbv zeta.
  destruct (resolvePath _ _ _ _ _ _) as [pathVarTypes|] eqn:Hpath; [|done]. simpl.
  destruct (resolveQuery _ _ _ _ _ _) as [queryTypes|] eqn:Hquery; [|done]. simpl.
  destruct (resolveSchema _ _ (firstSchema (requestBody definition)) _ _)
    as [[bodyTypes body]|] eqn:Hbody; [|done]. simpl.
  destruct (resolveSchema _ _ (firstSchema (responses definition !! "200")) _ _)
    as [[resTypes res]|] eqn:Hres; [|done]. simpl.
  intros [= <-]. simpl. split.
  - intros Hnone. rewrite (firstSchema_None _ Hnone), resolveSchema_emptySchema in Hbody.
    injection Hbody as <- <-. split; [done|].
    unfold firstMediaType. rewrite Hnone. done.
  - intros Hnone. rewrite (firstSchema_None _ Hnone), resolveSchema_emptySchema in Hres.
    by injection Hres as <- <-.
Qed.

(** X18. An operation without parameters, without a media type in its
    request body and without one in its response [200] gives, whatever the
    fuel and the table of definitions, a result that only holds the name and
    the comment: no interface is made. *)
Theorem parser_bare_operation fuel swaggerJSON path method definition :
  operationAt swaggerJSON path method = Some definition →
  default [] (parameters definition) = [] →
  firstEntry (requestBody definition) = None →
  firstEntry (responses definition !! "200") = None →
  parser matchRefTypeName toFirstUpperCase objectStatics fuel swaggerJSON path method
  = Some (Js.Normal
            (Some (mkParseResult (parseOperationId (operationId definition))
                     (joinComment [summary definition; op_description definition])
                     None false None None None []))).
Proof.
  intros Hop Hparameters Hbody Hres.
  unfold parser. rewrite (proj2 (definitionAt_operation _ _ _ _) Hop).
  cbv zeta. unfold resolvePath, resolveQuery, pathParameters, queryParameters.
  rewrite (firstSchema_None _ Hbody), (firstSchema_None _ Hres), !resolveSchema_emptySchema.
  unfold firstMediaType. rewrite Hbody.
  destruct (parameters definition) as [[|parameter rest]|]; [|done|]; reflexivity.
Qed.

(** *** Further properties of [resolveInterface] *)

(** X19. [resolveInterface] only puts interfaces in front of the
    collector: the interfaces that were there stay as they are, in their
    places, every interface of the result was there or is built from a
    definition of the table, and names that were pairwise distinct stay
    so. *)
Theorem resolveInterface_only_adds fuel ref definitions c markRequired c' :
  resolveInterface matchRefTypeName fuel ref definitions c markRequired = Some c' →
  (∃ pre, c' = pre ++ c)
  ∧ (∀ d, d ∈ c' → d ∈ c ∨ builtFrom matchRefTypeName definitions markRequired d)
  ∧ (NoDup (names c) → NoDup (names c')).
Proof.
  intros Hrun. pose proof (resolveInterface_registers _ _ _ _ _ _ Hrun) as Hregisters.
  pose proof (registers_grows _ _ _ _ Hregisters) as Hgrows.
  destruct Hregisters as (pre & -> & _ & _ & Hall).
  split; [by exists pre|]. split.
  - intros d Hd. apply elem_of_app in Hd as [Hd|Hd]; [right|by left].
    rewrite Forall_forall in Hall. by apply Hall.
  - by apply grows_NoDup.
Qed.

(** X20. Given any fuel to start with, [resolveInterface] returns the
    collector as it was exactly in three cases: the reference is empty, its
    name is already in the collector, or the table has no definition with
    properties for it. *)
Theorem resolveInterface_unchanged fuel ref definitions c markRequired :
  resolveInterface matchRefTypeName (S fuel) ref definitions c markRequired = Some c
  ↔ ref = ""
    ∨ matchRefTypeName definitionPrefix ref ∈ names c
    ∨ s_properties (referenced definitions ref) = None.
Proof.
  split.
  - intros Hrun. apply resolveInterface_cases in Hrun as [[_ Hcase]|Hcase]; [done|].
    destruct Hcase as (_ & _ & properties & pre & _ & Hc & _).
    apply (f_equal length) in Hc. rewrite length_app in Hc. simpl in Hc. lia.
  - intros Hcase. simpl. unfold resolveInterfaceWith.
    destruct (String.eqb ref "") eqn:Href; [done|].
    apply String.eqb_neq in Href.
    destruct (hasName (matchRefTypeName definitionPrefix ref) c) eqn:Hname; [done|].
    apply hasName_false in Hname.
    destruct Hcase as [?|[?|Hprops]]; [done|done|].
    unfold resolvePropertiesWith. unfold referenced in Hprops. by rewrite Hprops.
Qed.

End ResolverFacts.

(** ** The properties on the sample documents *)

Lemma resolveInterface_cyclic :
  resolveInterface Utils.matchRefTypeName 3 (definitionPrefix +:+ "A") Sample.cyclic [] true
  = Some [mkInterface "B" None
            [mkField "a" true "A[]" None None; mkField "x" true "string" None None];
          mkInterface "A" None
            [mkField "b" true "B" None None; mkField "n" false "number" None None]].
Proof. vm_compute. reflexivity. Qed.

Lemma resolveSchema_array_witness :
  enoughFuel Utils.matchRefTypeName Sample.cyclic ≤ 4
  ∧ (∃ collector,
       resolveSchema Utils.matchRefTypeName 4 (Sample.array (Sample.ref "A")) Sample.cyclic
         "ResponseBody"
       = Some (collector, Some "A")
       ∧ names collector = ["B"; "A"])
  ∧ resolveSchema Utils.matchRefTypeName 4 (Sample.array (Sample.primitive "number"))
      Sample.cyclic "ResponseBody"
    = Some ([], Some "number[]")
  ∧ resolveSchema Utils.matchRefTypeName 4 (Sample.array (Sample.primitive "string"))
      Sample.cyclic "ResponseBody"
    = Some ([], Some "string[]").
Proof.
  assert (enoughFuel Utils.matchRefTypeName Sample.cyclic ≤ 4) as Hfuel
    by (vm_compute; lia).
  split; [exact Hfuel|]. split; [|split].
  - destruct (resolveSchema_array Utils.matchRefTypeName 4 (Sample.array (Sample.ref "A"))
                Sample.cyclic "ResponseBody" eq_refl Hfuel)
      as (collector & name & Hrun & _).
    exists collector. rewrite Hrun. vm_compute in Hrun. injection Hrun as <- <-.
    split; reflexivity.
  - destruct (resolveSchema_array Utils.matchRefTypeName 4
                (Sample.array (Sample.primitive "number")) Sample.cyclic "ResponseBody"
                eq_refl Hfuel)
      as (collector & name & Hrun & Hempty & _ & Hitems & _).
    rewrite Hrun, Hempty.
    destruct (Hitems ltac:(discriminate) "number" eq_refl) as (_ & Hnumber & _).
    rewrite (Hnumber ltac:(discriminate) (list_elem_of_here _ _)). reflexivity.
  - destruct (resolveSchema_array Utils.matchRefTypeName 4
                (Sample.array (Sample.primitive "string")) Sample.cyclic "ResponseBody"
                eq_refl Hfuel)
      as (collector & name & Hrun & Hempty & _ & Hitems & _).
    rewrite Hrun, Hempty.
    destruct (Hitems ltac:(discriminate) "string" eq_refl) as (_ & _ & Hsame).
    rewrite (Hsame ltac:(discriminate) (list_elem_of_here _ _)). reflexivity.
Defined.

Lemma resolveSchema_name_witness :
  enoughFuel Utils.matchRefTypeName Sample.cyclic ≤ 4
  ∧ ∃ collector name,
      resolveSchema Utils.matchRefTypeName 4 (Sample.ref "A") Sample.cyclic "ResponseBody"
      = Some (collector, name)
      ∧ name = lastName collector
      ∧ name = Some "A".
Proof.
  assert (enoughFuel Utils.matchRefTypeName Sample.cyclic ≤ 4) as Hfuel
    by (vm_compute; lia).
  split; [exact Hfuel|].
  destruct (resolveSchema_name Utils.matchRefTypeName 4 (Sample.ref "A")
              Sample.cyclic "ResponseBody" Hfuel)
    as (collector & name & Hrun & _).
  exists collector, name. rewrite Hrun. vm_compute in Hrun. injection Hrun as <- <-.
  repeat split; reflexivity.
Defined.

(** C4, as the claim states it, fails: [A] is registered first and [B],
    the interface of its nested reference, last; the name returned is that
    of [A]. *)
Lemma resolveSchema_name_not_last_registered :
  ∃ collector name,
    resolveSchema Utils.matchRefTypeName 4 (Sample.ref "A") Sample.cyclic "ResponseBody"
    = Some (collector, name)
    ∧ names collector = ["B"; "A"]
    ∧ i_name <$> lastRegistered collector = Some "B"
    ∧ name = Some "A"
    ∧ name ≠ i_name <$> lastRegistered collector.
Proof.
  eexists _, _. split; [vm_compute; reflexivity|].
  repeat split; try reflexivity. discriminate.
Qed.

Lemma resolveProperties_optional_witness :
  enoughFuel Utils.matchRefTypeName Sample.cyclic ≤ 4
  ∧ s_required Sample.definitionA = Some ["n"]
  ∧ ∃ pre fields,
      resolveProperties Utils.matchRefTypeName 4 "A" (Some Sample.definitionA)
        Sample.cyclic [] true
      = Some (pre ++ [mkInterface "A" None fields])
      ∧ f_name <$> fields = ["b"; "n"]
      ∧ f_optional <$> fields = [true; false].
Proof.
  assert (enoughFuel Utils.matchRefTypeName Sample.cyclic ≤ 4) as Hfuel
    by (vm_compute; lia).
  split; [exact Hfuel|]. split; [reflexivity|].
  destruct (resolveProperties_optional Utils.matchRefTypeName 4 "A" Sample.definitionA
              _ Sample.cyclic [] true Hfuel eq_refl)
    as (pre & fields & Hrun & _).
  exists pre, fields. split; [exact Hrun|].
  vm_compute in Hrun. injection Hrun as Hrun.
  destruct pre as [|? [|? [|? ?]]]; try discriminate Hrun.
  injection Hrun as _ <-. split; reflexivity.
Defined.



Lemma parser_operation_witness :
  enoughFuel Utils.matchRefTypeName (schemas Sample.petStore) ≤ 3
  ∧ operationAt Sample.petStore "/pets/{id}" "get" = Some Sample.getPet
  ∧ (∃ result,
      parser Utils.matchRefTypeName Utils.toFirstUpperCase Host.objectStatics
          3 Sample.petStore "/pets/{id}" "get"
      = Some (Js.Normal (Some result))
      ∧ r_name result = "getPet")
  ∧ parser Utils.matchRefTypeName Utils.toFirstUpperCase Host.objectStatics
      3 Sample.petStore "/pets/{id}" "patch"
    = Some (Js.Normal None)
  ∧ parser Utils.matchRefTypeName Utils.toFirstUpperCase Host.objectStatics
      3 Sample.petStore "/pets/{id}" "constructor"
    = Some Js.TypeError
  ∧ parser Utils.matchRefTypeName Utils.toFirstUpperCase Host.objectStatics
      3 Sample.petStore "/toys" "get"
    = Some (Js.Normal None).
Proof.
  assert (enoughFuel Utils.matchRefTypeName (schemas Sample.petStore) ≤ 3) as Hfuel
    by (vm_compute; lia).
  split; [exact Hfuel|]. split; [reflexivity|].
  split; [|split; [|split]].
  - exact (parser_operation Utils.matchRefTypeName Utils.toFirstUpperCase Host.objectStatics
             3 Sample.petStore "/pets/{id}" "get" Hfuel).
  - exact (parser_operation Utils.matchRefTypeName Utils.toFirstUpperCase Host.objectStatics
             3 Sample.petStore "/pets/{id}" "patch" Hfuel).
  - exact (parser_operation Utils.matchRefTypeName Utils.toFirstUpperCase Host.objectStatics
             3 Sample.petStore "/pets/{id}" "constructor" Hfuel).
  - refine (parser_operation Utils.matchRefTypeName Utils.toFirstUpperCase Host.objectStatics
              3 Sample.petStore "/toys" "get" Hfuel _).
    intros Hin. repeat (apply elem_of_cons in Hin as [Hin|Hin]; [discriminate Hin|]).
    inversion Hin.
Defined.

(** C7, as the claim states it, fails twice.  The document has an
    operation under the lower-cased method, and [parser] returns without a
    value; it has no operation under the method [constructor], lower-cased
    or not, and [parser] throws. *)
Lemma parser_operation_not_as_claimed :
  operationAt Sample.petStore "/pets/{id}" (Js.toLowerCase "GET") = Some Sample.getPet
  ∧ parser Utils.matchRefTypeName Utils.toFirstUpperCase Host.objectStatics
      3 Sample.petStore "/pets/{id}" "GET"
    = Some (Js.Normal None)
  ∧ operationAt Sample.petStore "/pets/{id}" (Js.toLowerCase "constructor") = None
  ∧ parser Utils.matchRefTypeName Utils.toFirstUpperCase Host.objectStatics
      3 Sample.petStore "/pets/{id}" "constructor"
    = Some Js.TypeError.
Proof. repeat split; reflexivity. Qed.

(** What the lookup inherits.  [Object.keys] is a function, and the call
    throws; [Object.prototype.toString.length] is [0] and
    [Object.prototype.__proto__] is [null], and the call returns without a
    value. *)
Example parser_inherited_members :
  parser Utils.matchRefTypeName Utils.toFirstUpperCase Host.objectStatics
    3 Sample.petStore "constructor" "keys"
  = Some Js.TypeError
  ∧ parser Utils.matchRefTypeName Utils.toFirstUpperCase Host.objectStatics
      3 Sample.petStore "toString" "length"
    = Some (Js.Normal None)
  ∧ parser Utils.matchRefTypeName Utils.toFirstUpperCase Host.objectStatics
      3 Sample.petStore "__proto__" "__proto__"
    = Some (Js.Normal None).
Proof. repeat split; reflexivity. Qed.

Lemma path_variable_parameter_witness :
  Sample.idInQuery ∈ default [] (parameters Sample.putPet)
  ∧ p_in Sample.idInQuery = "query"
  ∧ p_name Sample.idInQuery ∈ pathVariables "/pets/{id}"
  ∧ enoughFuel Utils.matchRefTypeName Sample.pets ≤ 2
  ∧ Sample.idInQuery ∈ pathParameters (pathVariables "/pets/{id}") Sample.putPet
  ∧ resolvePath Utils.matchRefTypeName Utils.toFirstUpperCase 2 (pathVariables "/pets/{id}")
      Sample.putPet Sample.pets
    = Some [mkInterface "PutPetPathVar" None [mkField "id" true "number" None None]]
  ∧ resolveQuery Utils.matchRefTypeName Utils.toFirstUpperCase 2 (pathVariables "/pets/{id}")
      Sample.putPet Sample.pets
    = Some [mkInterface "PutPetQuery" None [mkField "dryRun" false "boolean" None None]].
Proof.
  assert (Sample.idInQuery ∈ default [] (parameters Sample.putPet)) as Hin
    by apply list_elem_of_here.
  assert (p_name Sample.idInQuery ∈ pathVariables "/pets/{id}") as Hname
    by apply list_elem_of_here.
  assert (enoughFuel Utils.matchRefTypeName Sample.pets ≤ 2) as Hfuel
    by (vm_compute; lia).
  destruct (path_variable_parameter Utils.matchRefTypeName Utils.toFirstUpperCase 2
              Sample.putPet Sample.pets "/pets/{id}" Sample.idInQuery Hin Hname Hfuel)
    as (Hpath & _ & (pre1 & refs1 & Hrun1 & _) & (pre2 & refs2 & Hrun2 & _)).
  split; [exact Hin|]. split; [reflexivity|]. split; [exact Hname|].
  split; [exact Hfuel|]. split; [exact Hpath|]. split.
  - vm_compute. reflexivity.
  - vm_compute. reflexivity.
Defined.

(** C9, as the claim states it, fails: [id] is a variable of the path,
    and [resolvePath] registers no interface at all, the parameter having
    no schema to take a type from. *)
Lemma path_variable_without_schema :
  Sample.idWithoutSchema ∈ default [] (parameters Sample.deletePet)
  ∧ p_name Sample.idWithoutSchema ∈ pathVariables "/pets/{id}"
  ∧ resolvePath Utils.matchRefTypeName Utils.toFirstUpperCase 2 (pathVariables "/pets/{id}")
      Sample.deletePet Sample.pets
    = Some []
  ∧ parser Utils.matchRefTypeName Utils.toFirstUpperCase Host.objectStatics
      2 Sample.petStore "/pets/{id}" "delete"
    = Some (Js.Normal (Some (mkParseResult "deletePet" "" None false None None None []))).
Proof.
  split; [apply list_elem_of_here|]. split; [apply list_elem_of_here|].
  split; [reflexivity|]. vm_compute. reflexivity.
Qed.

Lemma resolveParameters_optional_witness :
  enoughFuel Utils.matchRefTypeName Sample.pets ≤ 2
  ∧ p_required <$> Sample.putPetParameters = [None; Some true; None]
  ∧ resolveParameters Utils.matchRefTypeName 2 "PutPetQuery" Sample.putPetParameters Sample.pets
    = Some [mkInterface "PutPetQuery" None
              [mkField "id" true "number" None None;
               mkField "dryRun" false "boolean" None None]].
Proof.
  assert (enoughFuel Utils.matchRefTypeName Sample.pets ≤ 2) as Hfuel
    by (vm_compute; lia).
  split; [exact Hfuel|]. split; [reflexivity|].
  destruct (resolveParameters_optional Utils.matchRefTypeName 2 "PutPetQuery"
              Sample.putPetParameters Sample.pets Hfuel)
    as (pre & refs & Hrun & _).
  vm_compute. reflexivity.
Defined.

Lemma parser_interfaces_witness :
  ∃ result,
    parser Utils.matchRefTypeName Utils.toFirstUpperCase Host.objectStatics
        3 Sample.petStore "/pets/{id}" "put"
    = Some (Js.Normal (Some result))
    ∧ r_body result = Some "Pet"
    ∧ r_res result = Some "Pet"
    ∧ names (r_interfaces result) = ["PutPetPathVar"; "PutPetQuery"; "Pet"]
    ∧ NoDup (names (r_interfaces result)).
Proof.
  eexists. split; [vm_compute; reflexivity|].
  split; [reflexivity|]. split; [reflexivity|]. split; [reflexivity|].
  apply (parser_interfaces Utils.matchRefTypeName Utils.toFirstUpperCase Host.objectStatics
      3 Sample.petStore
           "/pets/{id}" "put").
  vm_compute. reflexivity.
Defined.

(** The example of the specification: [GET /pets/{id}]. *)
Example parser_getPet :
  parser Utils.matchRefTypeName Utils.toFirstUpperCase Host.objectStatics
      3 Sample.petStore "/pets/{id}" "get"
  = Some (Js.Normal (Some (mkParseResult "getPet" "Find a pet" None false
                  (Some "GetPetPathVar") None (Some "Pet")
                  [mkInterface "GetPetPathVar" None [mkField "id" false "number" None None];
                   mkInterface "Pet" None
                     [mkField "name" false "string" None None;
                      mkField "age" false "number" None None]]))).
Proof. vm_compute. reflexivity. Qed.

Example resolveSchema_array_of_numbers :
  resolveSchema Utils.matchRefTypeName 0 (Sample.array (Sample.primitive "number"))
    Sample.pets "ResponseBody"
  = Some ([], Some "number[]").
Proof. reflexivity. Qed.

Example pathVariables_two : pathVariables "/shops/{shop}/pets/{id}" = ["shop"; "id"].
Proof. reflexivity. Qed.

Lemma field_type_not_empty_witness :
  enoughFuel Utils.matchRefTypeName Sample.cyclic ≤ 4
  ∧ properNames Utils.matchRefTypeName
      (propertyFields [("b", Some (Sample.ref "B")); ("n", Some (Sample.primitive "integer"))]
         ["n"] true)
  ∧ ∃ pre fields,
      resolveProperties Utils.matchRefTypeName 4 "A" (Some Sample.definitionA) Sample.cyclic
        [] true
      = Some (pre ++ [mkInterface "A" None fields])
      ∧ f_type <$> fields = ["B"; "number"]
      ∧ ∀ f, f ∈ fields → f_type f ≠ "".
Proof.
  assert (enoughFuel Utils.matchRefTypeName Sample.cyclic ≤ 4) as Hfuel
    by (vm_compute; lia).
  assert (properNames Utils.matchRefTypeName
            (propertyFields
               [("b", Some (Sample.ref "B")); ("n", Some (Sample.primitive "integer"))]
               ["n"] true)) as Hnames.
  { intros item Hin Hstarts.
    change (item ∈ [mkField "b" true (definitionPrefix +:+ "B") None None;
                    mkField "n" false "number" None None]) in Hin.
    apply elem_of_cons in Hin as [->|Hin].
    - exists "B"%char, "". split; [reflexivity|discriminate].
    - apply elem_of_cons in Hin as [->|Hin]; [discriminate Hstarts|inversion Hin]. }
  split; [exact Hfuel|]. split; [exact Hnames|].
  destruct (proj1 (field_type_not_empty Utils.matchRefTypeName 4 Sample.cyclic Hfuel)
              "A" Sample.definitionA _ [] true eq_refl Hnames)
    as (pre & fields & Hrun & Htypes).
  exists pre, fields. split; [exact Hrun|]. split; [|exact Htypes].
  vm_compute in Hrun. injection Hrun as Hrun.
  destruct pre as [|? [|? [|? ?]]]; try discriminate Hrun.
  injection Hrun as _ <-. reflexivity.
Defined.

(** Without the proviso of X1 the rewriting can leave the empty text: a
    reference that is just the prefix of the definitions has the empty
    name. *)
Example field_type_empty :
  resolveProperties Utils.matchRefTypeName 1 "Odd"
    (Some (Sample.object [("x", Some (Sample.ref ""))] [])) Sample.pets [] true
  = Some [mkInterface "Odd" None [mkField "x" true "" None None]].
Proof. vm_compute. reflexivity. Qed.

Lemma propertyFields_omits_witness :
  Js.truthy (tsKeywordOf (default emptySchema None)) = false
  ∧ propertyFields
      ([("name", Some (Sample.primitive "string"))]
       ++ ("tag", None) :: [("age", Some (Sample.primitive "integer"))])
      ["name"] true
    = [mkField "name" false "string" None None; mkField "age" true "number" None None].
Proof.
  split; [reflexivity|].
  rewrite (propertyFields_omits [("name", Some (Sample.primitive "string"))] "tag" None
             [("age", Some (Sample.primitive "integer"))] ["name"] true eq_refl).
  - reflexivity.
  - intros Hin. repeat (apply elem_of_cons in Hin as [Hin|Hin]; [discriminate Hin|]).
    inversion Hin.
Defined.

Lemma resolveProperties_without_reference_witness :
  resolveProperties Utils.matchRefTypeName 0 "Pet"
    (Some (Sample.object [("name", Some (Sample.primitive "string"));
                          ("age", Some (Sample.primitive "integer"))] ["name"]))
    Sample.pets [] true
  = Some [mkInterface "Pet" None
            [mkField "name" false "string" None None; mkField "age" true "number" None None]].
Proof.
  exact (resolveProperties_without_reference Utils.matchRefTypeName 0 "Pet"
           (Sample.object [("name", Some (Sample.primitive "string"));
                           ("age", Some (Sample.primitive "integer"))] ["name"])
           _ Sample.pets [] true eq_refl eq_refl).
Defined.

Lemma resolveProperties_without_fields_witness :
  resolveProperties Utils.matchRefTypeName 0 "Meta"
    (Some (Sample.object [("extra", Some emptySchema)] [])) Sample.pets [] true
  = Some [mkInterface "Meta" None []].
Proof.
  apply (resolveProperties_without_fields Utils.matchRefTypeName 0 "Meta"
           (Sample.object [("extra", Some emptySchema)] []) [("extra", Some emptySchema)]
           Sample.pets [] true eq_refl).
  intros propName Hin. apply elem_of_cons in Hin as [->|Hin]; [reflexivity|inversion Hin].
Defined.

Lemma resolveParameters_empty_witness :
  enoughFuel Utils.matchRefTypeName Sample.pets ≤ 2
  ∧ omap parameterField [Sample.idWithoutSchema] = []
  ∧ resolveParameters Utils.matchRefTypeName 2 "DeletePetPathVar" [Sample.idWithoutSchema]
      Sample.pets
    = Some [].
Proof.
  assert (enoughFuel Utils.matchRefTypeName Sample.pets ≤ 2) as Hfuel
    by (vm_compute; lia).
  split; [exact Hfuel|]. split; [reflexivity|].
  apply (resolveParameters_empty Utils.matchRefTypeName 2 "DeletePetPathVar"
           [Sample.idWithoutSchema] Sample.pets Hfuel).
  reflexivity.
Defined.

Lemma resolveParameters_without_reference_witness :
  bodyRefs (omap parameterField Sample.putPetParameters) = []
  ∧ resolveParameters Utils.matchRefTypeName 0 "PutPetQuery" Sample.putPetParameters Sample.pets
    = Some [mkInterface "PutPetQuery" None
              [mkField "id" true "number" None None;
               mkField "dryRun" false "boolean" None None]].
Proof.
  split; [reflexivity|].
  apply (resolveParameters_without_reference Utils.matchRefTypeName 0 "PutPetQuery"
           Sample.putPetParameters Sample.pets).
  - intros parameter Hin.
    repeat (apply elem_of_cons in Hin as [->|Hin]; [reflexivity|]). inversion Hin.
  - reflexivity.
Defined.

Lemma parser_parameter_names_witness :
  enoughFuel Utils.matchRefTypeName (schemas Sample.shop) ≤ 2
  ∧ operationAt Sample.shop "/pets/search" "get" = Some Sample.findPets
  ∧ ∃ result,
      parser Utils.matchRefTypeName Utils.toFirstUpperCase Host.objectStatics
          2 Sample.shop "/pets/search" "get"
      = Some (Js.Normal (Some result))
      ∧ r_pathVar result = None
      ∧ r_query result = Some "Pet"
      ∧ names (r_interfaces result) = ["FindPetsQuery"; "Pet"].
Proof.
  assert (enoughFuel Utils.matchRefTypeName (schemas Sample.shop) ≤ 2) as Hfuel
    by (vm_compute; lia).
  split; [exact Hfuel|]. split; [reflexivity|].
  destruct (parser_parameter_names Utils.matchRefTypeName Utils.toFirstUpperCase Host.objectStatics
      2 Sample.shop
              "/pets/search" "get" Sample.findPets Hfuel eq_refl)
    as (result & Hrun & HpathVar & Hquery).
  exists result. split; [exact Hrun|]. rewrite HpathVar, Hquery.
  split; [reflexivity|]. split; [reflexivity|].
  vm_compute in Hrun. injection Hrun as <-. reflexivity.
Defined.

Lemma resolveSchema_without_properties_witness :
  resolveSchema Utils.matchRefTypeName 0 (Sample.primitive "string") Sample.pets "ResponseBody"
  = Some ([], None).
Proof.
  apply (resolveSchema_without_properties Utils.matchRefTypeName 0 (Sample.primitive "string")
           Sample.pets "ResponseBody").
  - discriminate.
  - reflexivity.
  - reflexivity.
Defined.

Lemma resolveSchema_NoDup_witness :
  ∃ collector name,
    resolveSchema Utils.matchRefTypeName 4 (Sample.ref "A") Sample.cyclic "ResponseBody"
    = Some (collector, name)
    ∧ names collector = ["B"; "A"]
    ∧ NoDup (names collector).
Proof.
  eexists _, _. split; [vm_compute; reflexivity|]. split; [reflexivity|].
  apply (resolveSchema_NoDup Utils.matchRefTypeName 4 (Sample.ref "A") Sample.cyclic
           "ResponseBody" _ (Some "A")).
  vm_compute. reflexivity.
Defined.

Lemma resolveSchema_optional_witness :
  ∃ collector name d (required : list string),
    resolveSchema Utils.matchRefTypeName 4 (Sample.ref "A") Sample.cyclic "ResponseBody"
    = Some (collector, name)
    ∧ d ∈ collector
    ∧ i_fields d = [mkField "b" true "B" None None; mkField "n" false "number" None None]
    ∧ ∀ f, f ∈ i_fields d → (f_optional f = false ↔ f_name f ∈ required).
Proof.
  pose (d := mkInterface "A" None
               [mkField "b" true "B" None None; mkField "n" false "number" None None]).
  assert (resolveSchema Utils.matchRefTypeName 4 (Sample.ref "A") Sample.cyclic "ResponseBody"
          = Some ([mkInterface "B" None
                     [mkField "a" true "A[]" None None; mkField "x" true "string" None None];
                   d], Some "A")) as Hrun
    by (vm_compute; reflexivity).
  assert (d ∈ [mkInterface "B" None
                 [mkField "a" true "A[]" None None; mkField "x" true "string" None None];
               d]) as Hin
    by (apply list_elem_of_further, list_elem_of_here).
  destruct (resolveSchema_optional Utils.matchRefTypeName 4 (Sample.ref "A") Sample.cyclic
              "ResponseBody" _ _ d Hrun Hin)
    as (required & _ & Hfields).
  eexists _, _, d, required. split; [exact Hrun|]. split; [exact Hin|].
  split; [reflexivity|exact Hfields].
Defined.

Lemma pathVariables_not_empty_witness :
  "id" ∈ pathVariables "/pets/{id}" ∧ "id" ≠ "" ∧ Js.noLineTerminator "id" = true.
Proof.
  assert ("id" ∈ pathVariables "/pets/{id}") as Hin by apply list_elem_of_here.
  split; [exact Hin|]. exact (pathVariables_not_empty "/pets/{id}" "id" Hin).
Defined.

Lemma pathVariables_segment_witness :
  Js.lacks "{" "/pets/" = true
  ∧ Js.lacks "}" "id" = true
  ∧ pathVariables "/pets/" = []
  ∧ pathVariables "/pets/{id}/toys/{toy}" = "id" :: pathVariables "/toys/{toy}".
Proof.
  split; [reflexivity|]. split; [reflexivity|].
  exact (pathVariables_segment "/pets/" "id" "/toys/{toy}" eq_refl ltac:(discriminate)
           eq_refl eq_refl).
Defined.

Lemma parseOperationId_name_witness :
  Js.indexOf "getPet" "Using" = None
  ∧ parseOperationId "getPetUsingGET" = "getPet"
  ∧ parseOperationId "getPet" = "getPet".
Proof.
  split; [reflexivity|]. exact (parseOperationId_name "getPet" "GET" eq_refl).
Defined.


Lemma parser_without_content_witness :
  operationAt Sample.petStore "/pets/{id}" "delete" = Some Sample.deletePet
  ∧ firstEntry (requestBody Sample.deletePet) = None
  ∧ firstEntry (responses Sample.deletePet !! "200") = None
  ∧ ∃ result,
      parser Utils.matchRefTypeName Utils.toFirstUpperCase Host.objectStatics
          2 Sample.petStore "/pets/{id}" "delete"
      = Some (Js.Normal (Some result))
      ∧ r_body result = None
      ∧ r_isFormData result = false
      ∧ r_res result = None.
Proof.
  split; [reflexivity|]. split; [reflexivity|]. split; [reflexivity|].
  assert (parser Utils.matchRefTypeName Utils.toFirstUpperCase Host.objectStatics 2 Sample.petStore
            "/pets/{id}" "delete"
          = Some (Js.Normal
                    (Some (mkParseResult "deletePet" "" None false None None None [])))) as Hrun
    by (vm_compute; reflexivity).
  destruct (parser_without_content Utils.matchRefTypeName Utils.toFirstUpperCase Host.objectStatics
      2
              Sample.petStore "/pets/{id}" "delete" Sample.deletePet _ eq_refl Hrun)
    as [Hbody Hres].
  eexists. split; [exact Hrun|].
  destruct (Hbody eq_refl) as [Hnone Hform].
  split; [exact Hnone|]. split; [exact Hform|]. exact (Hres eq_refl).
Defined.

Lemma parser_bare_operation_witness :
  operationAt Sample.shop "/pets" "get" = Some Sample.listPets
  ∧ parser Utils.matchRefTypeName Utils.toFirstUpperCase Host.objectStatics
      0 Sample.shop "/pets" "get"
    = Some (Js.Normal
              (Some (mkParseResult "listPets" "List, All the pets" None false None None None []))).
Proof.
  split; [reflexivity|].
  exact (parser_bare_operation Utils.matchRefTypeName Utils.toFirstUpperCase Host.objectStatics
      0 Sample.shop
           "/pets" "get" Sample.listPets eq_refl eq_refl eq_refl eq_refl).
Defined.

Lemma resolveInterface_only_adds_witness :
  ∃ collector,
    resolveInterface Utils.matchRefTypeName 3 (definitionPrefix +:+ "A") Sample.cyclic [] true
    = Some collector
    ∧ names collector = ["B"; "A"]
    ∧ NoDup (names collector).
Proof.
  assert (resolveInterface Utils.matchRefTypeName 3 (definitionPrefix +:+ "A") Sample.cyclic
            [] true
          = Some [mkInterface "B" None
                    [mkField "a" true "A[]" None None; mkField "x" true "string" None None];
                  mkInterface "A" None
                    [mkField "b" true "B" None None; mkField "n" false "number" None None]])
    as Hrun by (vm_compute; reflexivity).
  destruct (resolveInterface_only_adds Utils.matchRefTypeName 3 (definitionPrefix +:+ "A")
              Sample.cyclic [] true _ Hrun) as (_ & _ & Hdistinct).
  eexists. split; [exact Hrun|]. split; [reflexivity|]. apply Hdistinct. constructor.
Defined.

(** ** The string functions on sample texts *)

Example splitHead_array : Js.splitHead "#/components/schemas/Pet[]" = "#/components/schemas/Pet".
Proof. reflexivity. Qed.

Example splitHead_plain : Js.splitHead "#/components/schemas/Pet" = "#/components/schemas/Pet".
Proof. reflexivity. Qed.

Example splitHead_nested : Js.splitHead "#/components/schemas/Pet[][]" = "#/components/schemas/Pet".
Proof. reflexivity. Qed.

Example replaceRef_array : Js.replaceRef "#/components/schemas/Pet[]" "Pet$1" = "Pet[]".
Proof. reflexivity. Qed.

Example replaceRef_plain : Js.replaceRef "#/components/schemas/Pet" "Pet$1" = "Pet".
Proof. reflexivity. Qed.

